(** * pupperv3-mjx reward terms: a shallow embedding

    The reward catalog exists twice in the repository:
    [pupperv3_mjx/rewards_test_k.py] clips every term to [0, 1] after
    dividing by a term-specific constant, [pupperv3_mjx/rewards_test_w.py]
    clips the raw term to [-1000, 1000].  Module [K] and module [W] below
    follow the two files function by function.

    Arrays of floats are lists of real numbers and arithmetic is exact:
    rounding, overflow and underflow are not part of modules [K] and [W],
    where [jp.exp] is the real exponential and is never zero.  Module
    [NonFinite] re-reads six terms over values extended with the IEEE
    special values (not-a-number and the two infinities), with overflow
    to infinity and underflow of the exponential to zero, where the
    propagation of such values matters. *)

From Stdlib Require Import Reals Lra Lia List ZArith Bool String.
Import ListNotations.

Open Scope R_scope.

(** ** Scalars and arrays *)

(** [EPS = 1e-6], the module constant of both files. *)
Definition EPS : R := 1 / 1000000.

(** Comparisons of floats yield booleans. *)
Definition Rltb (x y : R) : bool := if Rlt_dec x y then true else false.
Definition Rleb (x y : R) : bool := if Rle_dec x y then true else false.
Definition Reqb (x y : R) : bool := if Req_dec_T x y then true else false.

(** A boolean that meets a float in a product is promoted to 0.0 or 1.0. *)
Definition b2r (b : bool) : R := if b then 1 else 0.

(** [jp.square], [jp.abs] *)
Definition square (x : R) : R := x * x.

(** [jp.clip(x, lo, hi)] is [minimum(maximum(x, lo), hi)]. *)
Definition clip (x lo hi : R) : R := Rmin (Rmax x lo) hi.

(** [jp.sum] over a one-dimensional array. *)
Definition sum (v : list R) : R := fold_right Rplus 0 v.

(** Elementwise binary operation on two arrays of one shape.  The
    arrays a term combines have equal length in every snapshot; the
    result stops at the shorter one otherwise. *)
Fixpoint zip_with {A B C : Type} (f : A -> B -> C) (u : list A) (v : list B)
  : list C :=
  match u, v with
  | a :: u', b :: v' => f a b :: zip_with f u' v'
  | _, _ => []
  end.

Definition vsub (u v : list R) : list R := zip_with Rminus u v.
Definition vmul (u v : list R) : list R := zip_with Rmult u v.
(** array * boolean mask *)
Definition vmask (u : list R) (m : list bool) : list R :=
  zip_with (fun a b => a * b2r b) u m.
(** array / scalar, array - scalar *)
Definition vdivs (u : list R) (d : R) : list R := map (fun a => a / d) u.
Definition vsubs (u : list R) (d : R) : list R := map (fun a => a - d) u.

(** The slice [a[1::3]]: entries 1, 4, 7, ... *)
Fixpoint stride3 (phase : nat) (a : list R) : list R :=
  match a with
  | [] => []
  | x :: a' =>
      match phase with
      | O => x :: stride3 2 a'
      | S p => stride3 p a'
      end
  end.
Definition slice_1_3 (a : list R) : list R := stride3 1 a.

(** Three-vectors and quaternions (scalar part first, as brax stores
    them). *)
Record vec3 : Type := V3 { c0 : R; c1 : R; c2 : R }.
Record quat : Type := Q4 { qw : R; qx : R; qy : R; qz : R }.

Definition vzero : vec3 := V3 0 0 0.
Definition qzero : quat := Q4 0 0 0 0.

(** [v[:2]] of a three-vector *)
Definition xy (v : vec3) : list R := [c0 v; c1 v].

Definition dot3 (u v : vec3) : R := c0 u * c0 v + c1 u * c1 v + c2 u * c2 v.
Definition cross3 (u v : vec3) : vec3 :=
  V3 (c1 u * c2 v - c2 u * c1 v)
     (c2 u * c0 v - c0 u * c2 v)
     (c0 u * c1 v - c1 u * c0 v).
Definition scale3 (k : R) (v : vec3) : vec3 := V3 (k * c0 v) (k * c1 v) (k * c2 v).
Definition add3 (u v : vec3) : vec3 := V3 (c0 u + c0 v) (c1 u + c1 v) (c2 u + c2 v).
Definition sub3 (u v : vec3) : vec3 := V3 (c0 u - c0 v) (c1 u - c1 v) (c2 u - c2 v).
Definition to_list3 (v : vec3) : list R := [c0 v; c1 v; c2 v].

(** ** The brax functions the terms call *)

Module math.

(** [brax.math.quat_inv]: [q * jp.array([1, -1, -1, -1])]. *)
Definition quat_inv (q : quat) : quat := Q4 (qw q) (- qx q) (- qy q) (- qz q).

(** [brax.math.rotate]:
    [s, u = quat[0], quat[1:]]
    [r = 2 * (dot(u, vec) * u) + (s * s - dot(u, u)) * vec]
    [r = r + 2 * s * cross(u, vec)]. *)
Definition rotate (vec : vec3) (q : quat) : vec3 :=
  let s := qw q in
  let u := V3 (qx q) (qy q) (qz q) in
  let r := add3 (scale3 2 (scale3 (dot3 u vec) u))
                (scale3 (s * s - dot3 u u) vec) in
  add3 r (scale3 (2 * s) (cross3 u vec)).

(** [jp.allclose(x, 0.0)] with the default tolerances: every entry is
    within [1e-8] of zero. *)
Definition allclose0 (x : list R) : bool :=
  forallb (fun a => Rleb (Rabs a) (1 / 100000000)) x.

(** [jp.linalg.norm] of a one-dimensional array. *)
Definition linalg_norm (x : list R) : R := sqrt (sum (map square x)).

(** [brax.math.safe_norm]: the Euclidean norm, and exactly 0 for an
    array that is all-close to zero. *)
Definition safe_norm (x : list R) : R :=
  let is_zero := allclose0 x in
  let x' := if is_zero then map (fun _ => 1) x else x in
  let n := linalg_norm x' in
  if is_zero then 0 else n.

(** [brax.math.normalize]: the pair (unit vector, norm). *)
Definition normalize (x : list R) : list R * R :=
  let norm := safe_norm x in
  let n := vdivs x (norm + (1 / 1000000) * b2r (Reqb norm 0)) in
  (n, norm).

End math.

(** ** The physics state a term reads *)

(** [brax.base.Transform] and [brax.base.Motion]: one entry per body,
    the robot base first. *)
Record Transform : Type := { pos : list vec3; rot : list quat }.
Record Motion : Type := { vel : list vec3; ang : list vec3 }.

(** One row of [pipeline_state.contact]: the two geometry ids and the
    signed distance of a contact. *)
Record contact_pair : Type := { geom1 : Z; geom2 : Z; dist : R }.

(** The fields of [brax.base.State] (an mjx pipeline state) that the
    terms read. *)
Record State : Type := {
  site_xpos : list vec3;
  xpos : list vec3;
  xd : Motion;
  contact : list contact_pair
}.

(** [a[0]]: the entry of the base body. *)
Definition base3 (a : list vec3) : vec3 := nth 0 a vzero.
Definition baseq (a : list quat) : quat := nth 0 a qzero.

(** [a[ids]] with an integer index array: a negative index counts from
    the end, an index out of range is clamped. *)
Definition index_clamped (a : list vec3) (i : Z) : vec3 :=
  let n := Z.of_nat (List.length a) in
  let j := if (i <? 0)%Z then (i + n)%Z else i in
  nth (Z.to_nat (Z.max 0 (Z.min j (n - 1)))) a vzero.
Definition gather (a : list vec3) (ids : list Z) : list vec3 :=
  map (index_clamped a) ids.

(** [brax.base.Base.take]: [jp.take(x, i, mode='wrap')] on every leaf. *)
Definition index_wrapped (a : list vec3) (i : Z) : vec3 :=
  nth (Z.to_nat (i mod Z.of_nat (List.length a))) a vzero.
Definition take (m : Motion) (ids : list Z) : Motion :=
  {| vel := map (index_wrapped (vel m)) ids;
     ang := map (index_wrapped (ang m)) ids |}.

(** [Transform.create(pos=p)]: the identity rotation at every entry. *)
Definition Transform_create (p : list vec3) : Transform :=
  {| pos := p; rot := map (fun _ => Q4 1 0 0 0) p |}.

(** [Transform.do] on a [Motion], for one entry:
    [rot_t = quat_inv(t.rot)], [ang = rotate(m.ang, rot_t)],
    [vel = rotate(m.vel - cross(t.pos, m.ang), rot_t)]. *)
Definition transform_do1 (tp : vec3) (tq : quat) (mv ma : vec3) : vec3 * vec3 :=
  let rot_t := math.quat_inv tq in
  (math.rotate (sub3 mv (cross3 tp ma)) rot_t, math.rotate ma rot_t).

(** [t.vmap().do(m)]: entry by entry. *)
Definition Transform_vmap_do (t : Transform) (m : Motion) : Motion :=
  let r := zip_with (fun pq va => transform_do1 (fst pq) (snd pq) (fst va) (snd va))
                    (combine (pos t) (rot t)) (combine (vel m) (ang m)) in
  {| vel := map fst r; ang := map snd r |}.

(** The number of contact rows that touch geometry [id] and penetrate:
    [jp.sum(((geom1 == id) | (geom2 == id)) * (dist < 0.0))]. *)
Definition touching (cs : list contact_pair) (id : Z) : R :=
  sum (map (fun c => b2r (((geom1 c =? id)%Z || (geom2 c =? id)%Z)
                          && Rltb (dist c) 0)) cs).

(** The loop [for id in geom_ids: contact += ...], from [contact = 0.0]. *)
Definition collision_count (cs : list contact_pair) (geom_ids : list Z) : R :=
  fold_left (fun acc id => acc + touching cs id) geom_ids 0.

(** The velocity of every foot, as the first lines of
    [reward_foot_slip] compute it in both files. *)
Definition foot_velocities (pipeline_state : State)
    (feet_site_id lower_leg_body_id : list Z) : list vec3 :=
  let p := gather (site_xpos pipeline_state) feet_site_id in
  let feet_offset := zip_with sub3 p (gather (xpos pipeline_state) lower_leg_body_id) in
  let offset := Transform_create feet_offset in
  let foot_indices := map (fun i => (i - 1)%Z) lower_leg_body_id in
  vel (Transform_vmap_do offset (take (xd pipeline_state) foot_indices)).

(** [jp.sum(jp.square(foot_vel[:, :2]) * contact_filt.reshape((-1, 1)))] *)
Definition masked_planar_speed (foot_vel : list vec3) (contact_filt : list bool) : R :=
  sum (zip_with (fun v b => sum (map (fun a => square a * b2r b) (xy v)))
                foot_vel contact_filt).

(** ** rewards_test_k.py: the unit-interval catalog *)

Module K.

Definition reward_lin_vel_z (xd : Motion) : R :=
  clip (square (c2 (base3 (vel xd))) / 4) 0 1.

Definition reward_ang_vel_xy (xd : Motion) : R :=
  clip (sum (map square (xy (base3 (ang xd)))) / 25) 0 1.

(** The local [error] of [reward_tracking_orientation]. *)
Definition orientation_error (desired_world_z_in_body_frame : vec3) (x : Transform) : R :=
  let world_z := V3 0 0 1 in
  let world_z_in_body_frame := math.rotate world_z (math.quat_inv (baseq (rot x))) in
  sum (map square (to_list3 (sub3 world_z_in_body_frame desired_world_z_in_body_frame))).

Definition reward_tracking_orientation
    (desired_world_z_in_body_frame : vec3) (x : Transform) (tracking_sigma : R) : R :=
  let error := orientation_error desired_world_z_in_body_frame x in
  clip (exp (- error / (tracking_sigma + EPS))) 0 1.

Definition reward_orientation (x : Transform) : R :=
  let up := V3 0 0 1 in
  let rot_up := math.rotate up (baseq (rot x)) in
  clip (sum (map square (xy rot_up)) / 2) 0 1.

Definition reward_torques (torques : list R) : R :=
  clip (sum (map square torques) / 1200) 0 1.

Definition reward_joint_acceleration (joint_vel last_joint_vel : list R) (dt : R) : R :=
  let acceleration :=
    sum (map square (vdivs (vsub joint_vel last_joint_vel) (dt + EPS))) in
  clip (acceleration / 120000) 0 1.

Definition reward_mechanical_work (torques velocities : list R) : R :=
  clip (sum (map Rabs (vmul torques velocities)) / 600) 0 1.

Definition reward_action_rate (act last_act : list R) : R :=
  clip (sum (map square (vsub act last_act)) / 48) 0 1.

(** The local [lin_vel_error] of [reward_tracking_lin_vel]. *)
Definition lin_vel_error (commands : list R) (x : Transform) (xd : Motion) : R :=
  let local_vel := math.rotate (base3 (vel xd)) (math.quat_inv (baseq (rot x))) in
  sum (map square (vsub (firstn 2 commands) (xy local_vel))).

Definition reward_tracking_lin_vel
    (commands : list R) (x : Transform) (xd : Motion) (tracking_sigma : R) : R :=
  let lin_vel_error := lin_vel_error commands x xd in
  let lin_vel_reward := exp (- lin_vel_error / (tracking_sigma + EPS)) in
  clip lin_vel_reward 0 1.

(** The local [ang_vel_error] of [reward_tracking_ang_vel]. *)
Definition ang_vel_error (commands : list R) (x : Transform) (xd : Motion) : R :=
  let base_ang_vel := math.rotate (base3 (ang xd)) (math.quat_inv (baseq (rot x))) in
  square (nth 2 commands 0 - c2 base_ang_vel).

Definition reward_tracking_ang_vel
    (commands : list R) (x : Transform) (xd : Motion) (tracking_sigma : R) : R :=
  let ang_vel_error := ang_vel_error commands x xd in
  clip (exp (- ang_vel_error / (tracking_sigma + EPS))) 0 1.

(** [minimum_airtime] has the default value 0.1 in the source. *)
Definition reward_feet_air_time
    (air_time : list R) (first_contact : list bool) (commands : list R)
    (minimum_airtime : R) : R :=
  let rew_air_time := sum (vmask (vsubs air_time minimum_airtime) first_contact) in
  let rew_air_time :=
    rew_air_time * b2r (Rltb (5 / 100) (snd (math.normalize (firstn 3 commands)))) in
  clip (rew_air_time / 2) 0 1.

(** [desired_abduction_angles] has the default value [jp.zeros(4)]. *)
Definition reward_abduction_angle (joint_angles desired_abduction_angles : list R) : R :=
  clip (sum (map square (vsub (slice_1_3 joint_angles) desired_abduction_angles))
        / (PI * PI)) 0 1.

Definition reward_stand_still
    (commands joint_angles default_pose : list R) (command_threshold : R) : R :=
  let penalty :=
    sum (map Rabs (vsub joint_angles default_pose))
    * b2r (Rltb (snd (math.normalize (firstn 3 commands))) command_threshold) in
  clip (penalty / (12 * PI)) 0 1.

Definition reward_foot_slip (pipeline_state : State) (contact_filt : list bool)
    (feet_site_id lower_leg_body_id : list Z) : R :=
  let foot_vel := foot_velocities pipeline_state feet_site_id lower_leg_body_id in
  let slip_penalty := masked_planar_speed foot_vel contact_filt in
  clip (slip_penalty / 16) 0 1.

Definition reward_termination (done : bool) (step step_threshold : Z) : bool :=
  done && (step <? step_threshold)%Z.

Definition reward_geom_collision (pipeline_state : State) (geom_ids : list Z) : R :=
  let contact := collision_count (contact pipeline_state) geom_ids in
  clip (contact / 10) 0 1.

End K.

(** ** rewards_test_w.py: the signed-wide catalog *)

Module W.

Definition reward_lin_vel_z (xd : Motion) : R :=
  clip (square (c2 (base3 (vel xd)))) (-1000) 1000.

Definition reward_ang_vel_xy (xd : Motion) : R :=
  clip (sum (map square (xy (base3 (ang xd))))) (-1000) 1000.

Definition orientation_error (desired_world_z_in_body_frame : vec3) (x : Transform) : R :=
  let world_z := V3 0 0 1 in
  let world_z_in_body_frame := math.rotate world_z (math.quat_inv (baseq (rot x))) in
  sum (map square (to_list3 (sub3 world_z_in_body_frame desired_world_z_in_body_frame))).

Definition reward_tracking_orientation
    (desired_world_z_in_body_frame : vec3) (x : Transform) (tracking_sigma : R) : R :=
  let error := orientation_error desired_world_z_in_body_frame x in
  clip (exp (- error / (tracking_sigma + EPS))) (-1000) 1000.

Definition reward_orientation (x : Transform) : R :=
  let up := V3 0 0 1 in
  let rot_up := math.rotate up (baseq (rot x)) in
  clip (sum (map square (xy rot_up))) (-1000) 1000.

Definition reward_torques (torques : list R) : R :=
  clip (sum (map square torques)) (-1000) 1000.

Definition reward_joint_acceleration (joint_vel last_joint_vel : list R) (dt : R) : R :=
  clip (sum (map square (vdivs (vsub joint_vel last_joint_vel) (dt + EPS))))
       (-1000) 1000.

Definition reward_mechanical_work (torques velocities : list R) : R :=
  clip (sum (map Rabs (vmul torques velocities))) (-1000) 1000.

Definition reward_action_rate (act last_act : list R) : R :=
  clip (sum (map square (vsub act last_act))) (-1000) 1000.

Definition lin_vel_error (commands : list R) (x : Transform) (xd : Motion) : R :=
  let local_vel := math.rotate (base3 (vel xd)) (math.quat_inv (baseq (rot x))) in
  sum (map square (vsub (firstn 2 commands) (xy local_vel))).

Definition reward_tracking_lin_vel
    (commands : list R) (x : Transform) (xd : Motion) (tracking_sigma : R) : R :=
  let lin_vel_error := lin_vel_error commands x xd in
  let lin_vel_reward := exp (- lin_vel_error / (tracking_sigma + EPS)) in
  clip lin_vel_reward (-1000) 1000.

Definition ang_vel_error (commands : list R) (x : Transform) (xd : Motion) : R :=
  let base_ang_vel := math.rotate (base3 (ang xd)) (math.quat_inv (baseq (rot x))) in
  square (nth 2 commands 0 - c2 base_ang_vel).

Definition reward_tracking_ang_vel
    (commands : list R) (x : Transform) (xd : Motion) (tracking_sigma : R) : R :=
  let ang_vel_error := ang_vel_error commands x xd in
  clip (exp (- ang_vel_error / (tracking_sigma + EPS))) (-1000) 1000.

Definition reward_feet_air_time
    (air_time : list R) (first_contact : list bool) (commands : list R)
    (minimum_airtime : R) : R :=
  let rew_air_time := sum (vmask (vsubs air_time minimum_airtime) first_contact) in
  let rew_air_time :=
    rew_air_time * b2r (Rltb (5 / 100) (snd (math.normalize (firstn 3 commands)))) in
  clip rew_air_time (-1000) 1000.

Definition reward_abduction_angle (joint_angles desired_abduction_angles : list R) : R :=
  clip (sum (map square (vsub (slice_1_3 joint_angles) desired_abduction_angles)))
       (-1000) 1000.

Definition reward_stand_still
    (commands joint_angles default_pose : list R) (command_threshold : R) : R :=
  clip (sum (map Rabs (vsub joint_angles default_pose))
        * b2r (Rltb (snd (math.normalize (firstn 3 commands))) command_threshold))
       (-1000) 1000.

Definition reward_foot_slip (pipeline_state : State) (contact_filt : list bool)
    (feet_site_id lower_leg_body_id : list Z) : R :=
  let foot_vel := foot_velocities pipeline_state feet_site_id lower_leg_body_id in
  clip (masked_planar_speed foot_vel contact_filt) (-1000) 1000.

Definition reward_termination (done : bool) (step step_threshold : Z) : bool :=
  done && (step <? step_threshold)%Z.

Definition reward_geom_collision (pipeline_state : State) (geom_ids : list Z) : R :=
  let contact := collision_count (contact pipeline_state) geom_ids in
  clip contact (-1000) 1000.

End W.


(** ** Terms over floats with special values *)

(** Floats as the hardware has them carry three kinds of value that a
    real number cannot express; a finite result beyond the largest float
    becomes an infinity, and an exponential below the smallest normal
    float becomes zero.  This module reads [reward_torques],
    [reward_joint_acceleration], [reward_stand_still] and the three
    tracking terms over such values, and with the one error the array
    library raises on its own, a failed broadcast.  Results within the
    range stay exact: rounding is not modelled. *)
Module NonFinite.

Inductive fval : Type :=
| Fin (r : R)
| PInf
| NInf
| NaN.

(** The only exception the array operations of these terms raise:
    two operand shapes that do not broadcast.  Neither file defines an
    exception class or contains a [raise]. *)
Inductive exception : Type := IncompatibleShapes.

Inductive outcome (A : Type) : Type :=
| Returns (a : A)
| Raises (e : exception).
Arguments Returns {A} a.
Arguments Raises {A} e.

Definition bind {A B : Type} (m : outcome A) (k : A -> outcome B) : outcome B :=
  match m with
  | Returns a => k a
  | Raises e => Raises e
  end.

(** The largest finite number of jax's default float type, float32.
    The lemmas below use only that it is at least 120000. *)
Definition fmax : R := (2 - / 2 ^ 23) * 2 ^ 127.

(** A finite result that leaves the range overflows to an infinity. *)
Definition overflow (r : R) : fval :=
  if Rltb fmax r then PInf
  else if Rltb r (- fmax) then NInf
  else Fin r.

(** The smallest positive normal float32, 2^-126.  The compiled
    program flushes a smaller result of [jp.exp] to zero. *)
Definition tiny : R := / 2 ^ 126.

(** A float multiplied by a boolean gate.  The compiled program selects
    between the float and zero, so a closed gate gives zero whatever
    the float is, an infinity included. *)
Definition fgate (x : fval) (b : bool) : fval := if b then x else Fin 0.

Definition fneg (x : fval) : fval :=
  match x with
  | Fin r => Fin (- r)
  | PInf => NInf
  | NInf => PInf
  | NaN => NaN
  end.

Definition fadd (x y : fval) : fval :=
  match x, y with
  | NaN, _ | _, NaN => NaN
  | Fin a, Fin b => overflow (a + b)
  | PInf, NInf | NInf, PInf => NaN
  | PInf, _ | _, PInf => PInf
  | NInf, _ | _, NInf => NInf
  end.

Definition fsub (x y : fval) : fval := fadd x (fneg y).

(** The sign of a non-zero finite factor decides which infinity a
    product with an infinity is; zero times infinity is not a number. *)
Definition signed_inf (a : R) (positive : bool) : fval :=
  if Req_dec_T a 0 then NaN
  else if Bool.eqb (Rltb 0 a) positive then PInf else NInf.

Definition fmul (x y : fval) : fval :=
  match x, y with
  | NaN, _ | _, NaN => NaN
  | Fin a, Fin b => overflow (a * b)
  | Fin a, PInf | PInf, Fin a => signed_inf a true
  | Fin a, NInf | NInf, Fin a => signed_inf a false
  | PInf, PInf | NInf, NInf => PInf
  | PInf, NInf | NInf, PInf => NInf
  end.

(** A finite value over zero is an infinity of its sign, zero over
    zero is not a number (the zero denominators met here are sums
    that cancel, which are positive zeros). *)
Definition fdiv (x y : fval) : fval :=
  match x, y with
  | NaN, _ | _, NaN => NaN
  | Fin a, Fin b => if Req_dec_T b 0 then signed_inf a true else overflow (a / b)
  | Fin _, PInf | Fin _, NInf => Fin 0
  | PInf, Fin b => if Rltb b 0 then NInf else PInf
  | NInf, Fin b => if Rltb b 0 then PInf else NInf
  | _, _ => NaN
  end.

Definition fsquare (x : fval) : fval := fmul x x.

(** [jp.exp]: the exponential of minus infinity is zero, and a result
    too small for a normal float underflows to zero. *)
Definition fexp (x : fval) : fval :=
  match x with
  | Fin r => if Rleb (exp r) tiny then Fin 0 else overflow (exp r)
  | PInf => PInf
  | NInf => Fin 0
  | NaN => NaN
  end.

Definition fabs (x : fval) : fval :=
  match x with
  | Fin r => Fin (Rabs r)
  | PInf | NInf => PInf
  | NaN => NaN
  end.

(** [jp.maximum] and [jp.minimum] propagate a not-a-number operand. *)
Definition fmaximum (x y : fval) : fval :=
  match x, y with
  | NaN, _ | _, NaN => NaN
  | PInf, _ | _, PInf => PInf
  | NInf, z | z, NInf => z
  | Fin a, Fin b => Fin (Rmax a b)
  end.

Definition fminimum (x y : fval) : fval :=
  match x, y with
  | NaN, _ | _, NaN => NaN
  | NInf, _ | _, NInf => NInf
  | PInf, z | z, PInf => z
  | Fin a, Fin b => Fin (Rmin a b)
  end.

Definition fclip (x lo hi : fval) : fval := fminimum (fmaximum x lo) hi.

Definition fsum (v : list fval) : fval := fold_right fadd (Fin 0) v.

(** An elementwise operation on two one-dimensional arrays: equal
    lengths pair up, an array of length one is repeated, any other
    pair of shapes is an error. *)
Definition broadcast2 (f : fval -> fval -> fval) (u v : list fval)
  : outcome (list fval) :=
  if Nat.eqb (List.length u) (List.length v) then Returns (zip_with f u v)
  else match u, v with
       | [a], _ => Returns (map (f a) v)
       | _, [b] => Returns (map (fun a => f a b) u)
       | _, _ => Raises IncompatibleShapes
       end.

(** Three-vectors and quaternions of floats, with the vector
    operations the rotation uses. *)
Record fvec3 : Type := FV3 { f0 : fval; f1 : fval; f2 : fval }.
Record fquat : Type := FQ4 { fw : fval; fx : fval; fy : fval; fz : fval }.

Definition fdot3 (u v : fvec3) : fval :=
  fadd (fadd (fmul (f0 u) (f0 v)) (fmul (f1 u) (f1 v))) (fmul (f2 u) (f2 v)).
Definition fcross3 (u v : fvec3) : fvec3 :=
  FV3 (fsub (fmul (f1 u) (f2 v)) (fmul (f2 u) (f1 v)))
      (fsub (fmul (f2 u) (f0 v)) (fmul (f0 u) (f2 v)))
      (fsub (fmul (f0 u) (f1 v)) (fmul (f1 u) (f0 v))).
Definition fscale3 (k : fval) (v : fvec3) : fvec3 :=
  FV3 (fmul k (f0 v)) (fmul k (f1 v)) (fmul k (f2 v)).
Definition fadd3 (u v : fvec3) : fvec3 :=
  FV3 (fadd (f0 u) (f0 v)) (fadd (f1 u) (f1 v)) (fadd (f2 u) (f2 v)).
Definition fsub3 (u v : fvec3) : fvec3 :=
  FV3 (fsub (f0 u) (f0 v)) (fsub (f1 u) (f1 v)) (fsub (f2 u) (f2 v)).

(** [brax.math.quat_inv] and [brax.math.rotate] over floats, operation
    by operation as in module [math]. *)
Definition fquat_inv (q : fquat) : fquat :=
  FQ4 (fmul (fw q) (Fin 1)) (fmul (fx q) (Fin (-1)))
      (fmul (fy q) (Fin (-1))) (fmul (fz q) (Fin (-1))).

Definition frotate (vec : fvec3) (q : fquat) : fvec3 :=
  let s := fw q in
  let u := FV3 (fx q) (fy q) (fz q) in
  let r := fadd3 (fscale3 (Fin 2) (fscale3 (fdot3 u vec) u))
                 (fscale3 (fsub (fmul s s) (fdot3 u u)) vec) in
  fadd3 r (fscale3 (fmul (Fin 2) s) (fcross3 u vec)).

(** [Transform] and [Motion] with float entries, the base body first. *)
Record FTransform : Type := { fpos : list fvec3; frot : list fquat }.
Record FMotion : Type := { fvel : list fvec3; fang : list fvec3 }.

Definition fzero3 : fvec3 := FV3 (Fin 0) (Fin 0) (Fin 0).
Definition fbase3 (a : list fvec3) : fvec3 := nth 0 a fzero3.
Definition fbaseq (a : list fquat) : fquat :=
  nth 0 a (FQ4 (Fin 0) (Fin 0) (Fin 0) (Fin 0)).

(** The value of a tracking term before the clip:
    [jp.exp(-error / (tracking_sigma + EPS))]. *)
Definition decay (error : fval) (tracking_sigma : R) : fval :=
  fexp (fdiv (fneg error) (Fin (tracking_sigma + EPS))).

Module K.

Definition orientation_error (desired_world_z_in_body_frame : fvec3) (x : FTransform)
  : fval :=
  let world_z := FV3 (Fin 0) (Fin 0) (Fin 1) in
  let world_z_in_body_frame := frotate world_z (fquat_inv (fbaseq (frot x))) in
  let d := fsub3 world_z_in_body_frame desired_world_z_in_body_frame in
  fsum (map fsquare [f0 d; f1 d; f2 d]).

Definition reward_tracking_orientation
    (desired_world_z_in_body_frame : fvec3) (x : FTransform) (tracking_sigma : R)
  : outcome fval :=
  let error := orientation_error desired_world_z_in_body_frame x in
  Returns (fclip (decay error tracking_sigma) (Fin 0) (Fin 1)).

Definition lin_vel_error (commands : list fval) (x : FTransform) (xd : FMotion) : fval :=
  let local_vel := frotate (fbase3 (fvel xd)) (fquat_inv (fbaseq (frot x))) in
  fsum (map fsquare (zip_with fsub (firstn 2 commands) [f0 local_vel; f1 local_vel])).

Definition reward_tracking_lin_vel
    (commands : list fval) (x : FTransform) (xd : FMotion) (tracking_sigma : R)
  : outcome fval :=
  let lin_vel_error := lin_vel_error commands x xd in
  let lin_vel_reward := decay lin_vel_error tracking_sigma in
  Returns (fclip lin_vel_reward (Fin 0) (Fin 1)).

Definition ang_vel_error (commands : list fval) (x : FTransform) (xd : FMotion) : fval :=
  let base_ang_vel := frotate (fbase3 (fang xd)) (fquat_inv (fbaseq (frot x))) in
  fsquare (fsub (nth 2 commands (Fin 0)) (f2 base_ang_vel)).

Definition reward_tracking_ang_vel
    (commands : list fval) (x : FTransform) (xd : FMotion) (tracking_sigma : R)
  : outcome fval :=
  let ang_vel_error := ang_vel_error commands x xd in
  Returns (fclip (decay ang_vel_error tracking_sigma) (Fin 0) (Fin 1)).

Definition reward_torques (torques : list fval) : outcome fval :=
  Returns (fclip (fdiv (fsum (map fsquare torques)) (Fin 1200)) (Fin 0) (Fin 1)).

Definition reward_joint_acceleration
    (joint_vel last_joint_vel : list fval) (dt : R) : outcome fval :=
  bind (broadcast2 fsub joint_vel last_joint_vel) (fun dv =>
  let acceleration :=
    fsum (map fsquare (map (fun a => fdiv a (Fin (dt + EPS))) dv)) in
  Returns (fclip (fdiv acceleration (Fin 120000)) (Fin 0) (Fin 1))).

(** The command and the threshold are ordinary small numbers. *)
Definition reward_stand_still
    (commands : list R) (joint_angles default_pose : list fval)
    (command_threshold : R) : outcome fval :=
  bind (broadcast2 fsub joint_angles default_pose) (fun dq =>
  let penalty :=
    fgate (fsum (map fabs dq))
          (Rltb (snd (math.normalize (firstn 3 commands))) command_threshold) in
  Returns (fclip (fdiv penalty (Fin (12 * PI))) (Fin 0) (Fin 1))).

End K.

Module W.

Definition orientation_error (desired_world_z_in_body_frame : fvec3) (x : FTransform)
  : fval :=
  let world_z := FV3 (Fin 0) (Fin 0) (Fin 1) in
  let world_z_in_body_frame := frotate world_z (fquat_inv (fbaseq (frot x))) in
  let d := fsub3 world_z_in_body_frame desired_world_z_in_body_frame in
  fsum (map fsquare [f0 d; f1 d; f2 d]).

Definition reward_tracking_orientation
    (desired_world_z_in_body_frame : fvec3) (x : FTransform) (tracking_sigma : R)
  : outcome fval :=
  let error := orientation_error desired_world_z_in_body_frame x in
  Returns (fclip (decay error tracking_sigma) (Fin (-1000)) (Fin 1000)).

Definition lin_vel_error (commands : list fval) (x : FTransform) (xd : FMotion) : fval :=
  let local_vel := frotate (fbase3 (fvel xd)) (fquat_inv (fbaseq (frot x))) in
  fsum (map fsquare (zip_with fsub (firstn 2 commands) [f0 local_vel; f1 local_vel])).

Definition reward_tracking_lin_vel
    (commands : list fval) (x : FTransform) (xd : FMotion) (tracking_sigma : R)
  : outcome fval :=
  let lin_vel_error := lin_vel_error commands x xd in
  let lin_vel_reward := decay lin_vel_error tracking_sigma in
  Returns (fclip lin_vel_reward (Fin (-1000)) (Fin 1000)).

Definition ang_vel_error (commands : list fval) (x : FTransform) (xd : FMotion) : fval :=
  let base_ang_vel := frotate (fbase3 (fang xd)) (fquat_inv (fbaseq (frot x))) in
  fsquare (fsub (nth 2 commands (Fin 0)) (f2 base_ang_vel)).

Definition reward_tracking_ang_vel
    (commands : list fval) (x : FTransform) (xd : FMotion) (tracking_sigma : R)
  : outcome fval :=
  let ang_vel_error := ang_vel_error commands x xd in
  Returns (fclip (decay ang_vel_error tracking_sigma) (Fin (-1000)) (Fin 1000)).

Definition reward_torques (torques : list fval) : outcome fval :=
  Returns (fclip (fsum (map fsquare torques)) (Fin (-1000)) (Fin 1000)).

Definition reward_joint_acceleration
    (joint_vel last_joint_vel : list fval) (dt : R) : outcome fval :=
  bind (broadcast2 fsub joint_vel last_joint_vel) (fun dv =>
  Returns (fclip (fsum (map fsquare (map (fun a => fdiv a (Fin (dt + EPS))) dv)))
                 (Fin (-1000)) (Fin 1000))).

Definition reward_stand_still
    (commands : list R) (joint_angles default_pose : list fval)
    (command_threshold : R) : outcome fval :=
  bind (broadcast2 fsub joint_angles default_pose) (fun dq =>
  Returns (fclip
    (fgate (fsum (map fabs dq))
           (Rltb (snd (math.normalize (firstn 3 commands))) command_threshold))
    (Fin (-1000)) (Fin 1000))).

End W.

(** A finite array. *)
Definition finite (v : list R) : list fval := map Fin v.

(** The arrays with one entry at the top of the range. *)
Definition at_fmax (n : nat) : list fval := repeat (Fin fmax) n.
Definition zeros (n : nat) : list fval := repeat (Fin 0) n.

(** Finite vectors, quaternions and states as floats. *)
Definition finite3 (v : vec3) : fvec3 := FV3 (Fin (c0 v)) (Fin (c1 v)) (Fin (c2 v)).
Definition finiteq (q : quat) : fquat :=
  FQ4 (Fin (qw q)) (Fin (qx q)) (Fin (qy q)) (Fin (qz q)).
Definition finite_pose (x : Transform) : FTransform :=
  {| fpos := map finite3 (pos x); frot := map finiteq (rot x) |}.
Definition finite_motion (xd : Motion) : FMotion :=
  {| fvel := map finite3 (vel xd); fang := map finite3 (ang xd) |}.


(** The exact value of a tracking exponential once underflow is taken
    into account. *)
Definition flushed_exp (r : R) : R := if Rleb (exp r) tiny then 0 else exp r.

(** What a sum of squares can be: a number that is not negative, plus
    infinity, or not-a-number. *)
Definition squared_kind (x : fval) : Prop :=
  match x with
  | Fin r => 0 <= r
  | NInf => False
  | _ => True
  end.

(** A float that is a number in [lo, hi], or not-a-number. *)
Definition within_or_nan (lo hi : R) (x : fval) : Prop :=
  match x with
  | Fin r => lo <= r <= hi
  | NaN => True
  | _ => False
  end.


(** A call that returns a number between [lo] and [hi], or
    not-a-number. *)
Definition bounded_or_nan (lo hi : R) (o : outcome fval) : Prop :=
  match o with
  | Returns x => within_or_nan lo hi x
  | Raises _ => False
  end.

End NonFinite.
(** ** Notions the statements use *)

(** The norm the gated terms test: [math.normalize(commands[:3])[1]]. *)
Definition command_norm (commands : list R) : R :=
  snd (math.normalize (firstn 3 commands)).

(** The planar norm of a command: the same norm, of [commands[:2]]. *)
Definition planar_norm (commands : list R) : R :=
  snd (math.normalize (firstn 2 commands)).

(** The declared bound of each convention. *)
Definition in_unit (r : R) : Prop := 0 <= r <= 1.
Definition in_wide (r : R) : Prop := -1000 <= r <= 1000.

(** [jp.sum(jp.abs(joint_angles - default_pose))] *)
Definition pose_deviation (joint_angles default_pose : list R) : R :=
  sum (map Rabs (vsub joint_angles default_pose)).


(** A robot at rest and upright. *)
Definition upright : Transform := {| pos := [vzero]; rot := [Q4 1 0 0 0] |}.
Definition at_rest : Motion := {| vel := [vzero]; ang := [vzero] |}.

(** The state [st] with the rows [cs] as its contacts. *)
Definition set_contact (st : State) (cs : list contact_pair) : State :=
  {| site_xpos := site_xpos st; xpos := xpos st; xd := xd st; contact := cs |}.

(** A state that holds nothing but contacts. *)
Definition contacts_only (cs : list contact_pair) : State :=
  {| site_xpos := []; xpos := []; xd := at_rest; contact := cs |}.

(** Whether a contact row touches geometry [id], and how many of the
    watched ids a row touches. *)
Definition touches (c : contact_pair) (id : Z) : bool :=
  ((geom1 c =? id) || (geom2 c =? id))%Z.
Definition matching_ids (c : contact_pair) (geom_ids : list Z) : nat :=
  List.length (filter (touches c) geom_ids).

(** The squared length of a quaternion and of a three-vector; a base
    orientation is a unit quaternion. *)
Definition qnorm2 (q : quat) : R := qw q * qw q + qx q * qx q + qy q * qy q + qz q * qz q.
Definition norm2 (v : vec3) : R := dot3 v v.

(** A state whose only body is the base, with orientation [q], linear
    velocity [v] and angular velocity [w]. *)
Definition base_pose (q : quat) : Transform := {| pos := [vzero]; rot := [q] |}.
Definition base_motion (v w : vec3) : Motion := {| vel := [v]; ang := [w] |}.

(** Joint arrays that agree at every abduction index 1, 4, 7, ... *)
Definition same_abduction (a a' : list R) : Prop :=
  List.length a = List.length a' /\
  forall i, (i mod 3 = 1)%nat -> nth i a 0 = nth i a' 0.

(** No foot that landed at this step was in the air longer than [m]. *)
Definition short_flights (air_time : list R) (first_contact : list bool) (m : R) : Prop :=
  Forall (fun p => snd p = true -> fst p <= m) (combine air_time first_contact).

(** The reward summed by [reward_feet_air_time] before the gate. *)
Definition air_time_sum (air_time : list R) (first_contact : list bool) (m : R) : R :=
  sum (vmask (vsubs air_time m) first_contact).

(** The offset of every foot site from its lower-leg body, and the
    motion of those bodies, as [reward_foot_slip] gathers them. *)
Definition foot_offsets (st : State) (feet_site_id lower_leg_body_id : list Z) : list vec3 :=
  zip_with sub3 (gather (site_xpos st) feet_site_id) (gather (xpos st) lower_leg_body_id).
Definition leg_motion (st : State) (lower_leg_body_id : list Z) : Motion :=
  take (xd st) (map (fun i => (i - 1)%Z) lower_leg_body_id).

(** The velocity of a point at offset [r] from a body that moves with
    linear velocity [v] and angular velocity [w], as the offset
    transform computes it. *)
Definition offset_velocity (r : vec3) (va : vec3 * vec3) : vec3 :=
  sub3 (fst va) (cross3 r (snd va)).

(** The contact rows that penetrate, and a row with its two geometries
    exchanged. *)
Definition penetrating (cs : list contact_pair) : list contact_pair :=
  filter (fun c => Rltb (dist c) 0) cs.
Definition swap_geoms (c : contact_pair) : contact_pair :=
  {| geom1 := geom2 c; geom2 := geom1 c; dist := dist c |}.

(** ** wheeled_reward_config.py *)

(** [reward_config.rewards.scales]: the attribute assignments of the
    file, in the order they are written. *)
Definition wheeled_scales : list (string * R) :=
  [ ("tracking_lin_vel"%string, 25 / 10);
    ("tracking_ang_vel"%string, 15 / 10);
    ("lin_vel_z"%string, - 5);
    ("ang_vel_xy"%string, - 2);
    ("orientation"%string, - 8);
    ("action_rate"%string, - (5 / 100));
    ("torques"%string, - (1 / 1000));
    ("stand_still"%string, - 1);
    ("body_collision"%string, - 10);
    ("termination"%string, - 200);
    ("tracking_orientation"%string, 0);
    ("joint_acceleration"%string, 0);
    ("mechanical_work"%string, 0);
    ("feet_air_time"%string, 0);
    ("stand_still_joint_velocity"%string, 0);
    ("abduction_angle"%string, 0);
    ("foot_slip"%string, 0);
    ("knee_collision"%string, 0) ].

(** [reward_config.rewards.tracking_sigma] *)
Definition wheeled_tracking_sigma : R := 25 / 100.

(** The terms of the catalog: the names of the [reward_*] functions,
    the same in both reward files, in the order they are defined. *)
Definition catalog_terms : list string :=
  [ "lin_vel_z"; "ang_vel_xy"; "tracking_orientation"; "orientation"; "torques";
    "joint_acceleration"; "mechanical_work"; "action_rate"; "tracking_lin_vel";
    "tracking_ang_vel"; "feet_air_time"; "abduction_angle"; "stand_still";
    "foot_slip"; "termination"; "geom_collision" ]%string.

Definition mem_string (s : string) (l : list string) : bool :=
  existsb (String.eqb s) l.

(** Reading an attribute of the config: the value last assigned to the
    key, if any. *)
Fixpoint scale_of (cfg : list (string * R)) (key : string) : option R :=
  match cfg with
  | [] => None
  | (k, v) :: cfg' =>
      match scale_of cfg' key with
      | Some later => Some later
      | None => if String.eqb k key then Some v else None
      end
  end.

(** States and commands of moderate size: every velocity, command and
    desired-axis entry is at most 1000 in magnitude and every quaternion
    entry at most 1, as for a unit quaternion.  No operation of a
    tracking error leaves the float range on such inputs. *)
Definition moderate3 (v : vec3) : Prop :=
  Rabs (c0 v) <= 1000 /\ Rabs (c1 v) <= 1000 /\ Rabs (c2 v) <= 1000.
Definition moderateq (q : quat) : Prop :=
  Rabs (qw q) <= 1 /\ Rabs (qx q) <= 1 /\ Rabs (qy q) <= 1 /\ Rabs (qz q) <= 1.
Definition moderate (v : list R) : Prop := Forall (fun a => Rabs a <= 1000) v.
(** ** Elementary facts *)

Lemma Rltb_true (x y : R) : x < y -> Rltb x y = true.
Proof. intro H. unfold Rltb. destruct (Rlt_dec x y); [reflexivity | contradiction]. Qed.

Lemma Rltb_false (x y : R) : y <= x -> Rltb x y = false.
Proof. intro H. unfold Rltb. destruct (Rlt_dec x y); [lra | reflexivity]. Qed.

Lemma Rleb_true (x y : R) : x <= y -> Rleb x y = true.
Proof. intro H. unfold Rleb. destruct (Rle_dec x y); [reflexivity | contradiction]. Qed.

Lemma Rleb_false (x y : R) : y < x -> Rleb x y = false.
Proof. intro H. unfold Rleb. destruct (Rle_dec x y); [lra | reflexivity]. Qed.

Lemma b2r_range (b : bool) : 0 <= b2r b <= 1.
Proof. destruct b; simpl; lra. Qed.

Lemma square_nonneg (x : R) : 0 <= square x.
Proof. unfold square. nra. Qed.

Lemma clip_bounds (x lo hi : R) : lo <= hi -> lo <= clip x lo hi <= hi.
Proof.
  intro H. unfold clip, Rmin, Rmax.
  destruct (Rle_dec x lo); destruct (Rle_dec _ hi); lra.
Qed.

Lemma clip_inside (x lo hi : R) : lo <= x <= hi -> clip x lo hi = x.
Proof.
  intro H. unfold clip, Rmin, Rmax.
  destruct (Rle_dec x lo); destruct (Rle_dec _ hi); lra.
Qed.

Lemma clip_above (x lo hi : R) : lo <= hi -> hi <= x -> clip x lo hi = hi.
Proof.
  intros H1 H2. unfold clip, Rmin, Rmax.
  destruct (Rle_dec x lo); destruct (Rle_dec _ hi); lra.
Qed.

Lemma clip_below (x lo hi : R) : lo <= hi -> x <= lo -> clip x lo hi = lo.
Proof.
  intros H1 H2. unfold clip, Rmin, Rmax.
  destruct (Rle_dec x lo); destruct (Rle_dec _ hi); lra.
Qed.

Lemma clip_mono (x y lo hi : R) : x <= y -> clip x lo hi <= clip y lo hi.
Proof.
  intro H. unfold clip, Rmin, Rmax.
  destruct (Rle_dec x lo); destruct (Rle_dec y lo);
    repeat match goal with |- context [Rle_dec ?a ?b] => destruct (Rle_dec a b) end; lra.
Qed.

Lemma clip_unit (x : R) : in_unit (clip x 0 1).
Proof. apply clip_bounds. lra. Qed.

Lemma clip_wide (x : R) : in_wide (clip x (-1000) 1000).
Proof. apply clip_bounds. lra. Qed.

Lemma sum_nonneg (v : list R) : (forall a, In a v -> 0 <= a) -> 0 <= sum v.
Proof.
  induction v as [|a v IH]; intro H; simpl.
  - lra.
  - assert (0 <= a) by (apply H; left; reflexivity).
    assert (0 <= sum v) by (apply IH; intros b Hb; apply H; right; exact Hb).
    unfold sum in *. lra.
Qed.

Lemma sum_squares_nonneg (v : list R) : 0 <= sum (map square v).
Proof.
  apply sum_nonneg. intros a Ha. apply in_map_iff in Ha.
  destruct Ha as [b [<- _]]. apply square_nonneg.
Qed.

Lemma sum_abs_nonneg (v : list R) : 0 <= sum (map Rabs v).
Proof.
  apply sum_nonneg. intros a Ha. apply in_map_iff in Ha.
  destruct Ha as [b [<- _]]. apply Rabs_pos.
Qed.

Lemma sum_app (u v : list R) : sum (u ++ v) = sum u + sum v.
Proof.
  induction u as [|a u IH]; simpl.
  - lra.
  - unfold sum in *. simpl. rewrite IH. lra.
Qed.

Lemma vsub_diag (v : list R) : sum (map Rabs (vsub v v)) = 0.
Proof.
  induction v as [|a v IH]; simpl.
  - reflexivity.
  - unfold vsub in IH. unfold sum in *. simpl. rewrite IH.
    replace (a - a) with 0 by lra. rewrite Rabs_R0. lra.
Qed.

Lemma EPS_pos : 0 < EPS.
Proof. unfold EPS. lra. Qed.

Lemma pi_squared_range : 0 < PI * PI <= 1000.
Proof. pose proof PI_RGT_0. pose proof PI_4. nra. Qed.

Lemma twelve_pi_range : 0 < 12 * PI <= 1000.
Proof. pose proof PI_RGT_0. pose proof PI_4. lra. Qed.

(** ** Termination *)

(** C2: [reward_termination] is true exactly when [done] is true and
    [step < step_threshold], in both files; at [step = step_threshold] it
    is false. *)
Theorem C2_termination_iff (done : bool) (step step_threshold : Z) :
  (K.reward_termination done step step_threshold = true
     <-> done = true /\ (step < step_threshold)%Z) /\
  (W.reward_termination done step step_threshold = true
     <-> done = true /\ (step < step_threshold)%Z) /\
  K.reward_termination done step_threshold step_threshold = false /\
  W.reward_termination done step_threshold step_threshold = false.
Proof.
  unfold K.reward_termination, W.reward_termination.
  rewrite andb_true_iff, Z.ltb_lt, Z.ltb_irrefl, andb_false_r.
  repeat split; tauto.
Qed.

(** ** The command gate *)

Lemma linalg_norm_nonneg (x : list R) : 0 <= math.linalg_norm x.
Proof. unfold math.linalg_norm. apply sqrt_pos. Qed.

Lemma safe_norm_nonneg (x : list R) : 0 <= math.safe_norm x.
Proof.
  unfold math.safe_norm. destruct (math.allclose0 x).
  - lra.
  - apply linalg_norm_nonneg.
Qed.

Lemma safe_norm_far (x : list R) :
  math.allclose0 x = false -> math.safe_norm x = sqrt (sum (map square x)).
Proof. intro H. unfold math.safe_norm. rewrite H. reflexivity. Qed.

Lemma safe_norm_close (x : list R) :
  math.allclose0 x = true -> math.safe_norm x = 0.
Proof. intro H. unfold math.safe_norm. rewrite H. reflexivity. Qed.

Lemma snd_normalize (x : list R) : snd (math.normalize x) = math.safe_norm x.
Proof. reflexivity. Qed.

Lemma command_norm_nonneg (commands : list R) : 0 <= command_norm commands.
Proof. unfold command_norm. rewrite snd_normalize. apply safe_norm_nonneg. Qed.

(** [commands[:2]] is a prefix of [commands[:3]]. *)
Lemma firstn_2_3 (c : list R) : exists t, firstn 3 c = firstn 2 c ++ t.
Proof.
  destruct c as [|a [|b [|d c]]]; simpl.
  - exists []. reflexivity.
  - exists []. reflexivity.
  - exists []. reflexivity.
  - exists [d]. reflexivity.
Qed.

Lemma allclose0_app (u v : list R) :
  math.allclose0 (u ++ v) = math.allclose0 u && math.allclose0 v.
Proof. unfold math.allclose0. apply forallb_app. Qed.

(** The planar norm never exceeds the norm of the whole command. *)
Lemma planar_norm_le_command_norm (commands : list R) :
  planar_norm commands <= command_norm commands.
Proof.
  unfold planar_norm, command_norm. rewrite !snd_normalize.
  destruct (firstn_2_3 commands) as [t Ht]. rewrite Ht.
  destruct (math.allclose0 (firstn 2 commands ++ t)) eqn:Hall.
  - rewrite allclose0_app in Hall. apply andb_true_iff in Hall.
    rewrite (safe_norm_close (firstn 2 commands)) by tauto.
    apply safe_norm_nonneg.
  - rewrite (safe_norm_far _ Hall).
    unfold math.safe_norm. destruct (math.allclose0 (firstn 2 commands)).
    + apply sqrt_pos.
    + unfold math.linalg_norm. apply sqrt_le_1_alt.
      rewrite map_app, sum_app. pose proof (sum_squares_nonneg t). lra.
Qed.

(** Away from zero the norm of the command is the Euclidean norm of its
    first three entries. *)
Lemma command_norm_euclid (vx vy wz : R) (rest : list R) :
  1 / 100000000 < Rabs vx \/ 1 / 100000000 < Rabs vy \/ 1 / 100000000 < Rabs wz ->
  command_norm (vx :: vy :: wz :: rest) = sqrt (vx * vx + vy * vy + wz * wz).
Proof.
  intro H. unfold command_norm. rewrite snd_normalize. simpl firstn.
  rewrite safe_norm_far.
  - f_equal. unfold sum, square. simpl. lra.
  - unfold math.allclose0. simpl.
    destruct H as [H | [H | H]];
      rewrite (Rleb_false _ _ H); rewrite ?andb_false_r; reflexivity.
Qed.

Lemma command_norm_yaw_only : command_norm [0; 0; 1] = 1.
Proof.
  rewrite command_norm_euclid.
  - replace (0 * 0 + 0 * 0 + 1 * 1) with 1 by lra. apply sqrt_1.
  - right. right. rewrite Rabs_R1. lra.
Qed.

Lemma command_norm_forward_only : command_norm [1 / 100; 0; 0] = 1 / 100.
Proof.
  rewrite command_norm_euclid.
  - replace (1 / 100 * (1 / 100) + 0 * 0 + 0 * 0) with ((1 / 100) * (1 / 100)) by lra.
    apply sqrt_square. lra.
  - left. rewrite Rabs_right; lra.
Qed.

Lemma planar_norm_yaw_only : planar_norm [0; 0; 1] = 0.
Proof.
  unfold planar_norm. rewrite snd_normalize. simpl firstn. apply safe_norm_close.
  unfold math.allclose0. simpl. rewrite Rabs_R0.
  rewrite Rleb_true by lra. reflexivity.
Qed.

Lemma command_norm_zero : command_norm [0; 0; 0] = 0.
Proof.
  unfold command_norm. rewrite snd_normalize. simpl firstn. apply safe_norm_close.
  unfold math.allclose0. simpl. rewrite Rabs_R0.
  rewrite Rleb_true by lra. reflexivity.
Qed.

(** ** Feet air time *)

(** C3, as the spec states it, fails: a pure yaw command has planar norm
    0, yet the air-time reward of a foot that landed after one second is
    0.45 in the unit-interval file and 0.9 in the signed-wide one. *)
Lemma C3_planar_gate_counterexample :
  planar_norm [0; 0; 1] <= 5 / 100 /\
  K.reward_feet_air_time [1] [true] [0; 0; 1] (1 / 10) = 9 / 20 /\
  W.reward_feet_air_time [1] [true] [0; 0; 1] (1 / 10) = 9 / 10 /\
  K.reward_feet_air_time [1] [true] [0; 0; 1] (1 / 10) <> 0.
Proof.
  assert (HK : K.reward_feet_air_time [1] [true] [0; 0; 1] (1 / 10) = 9 / 20).
  { unfold K.reward_feet_air_time.
    change (snd (math.normalize (firstn 3 [0; 0; 1]))) with (command_norm [0; 0; 1]).
    rewrite command_norm_yaw_only, Rltb_true by lra.
    unfold sum, vmask, vsubs. simpl. rewrite clip_inside; lra. }
  repeat split.
  - rewrite planar_norm_yaw_only. lra.
  - exact HK.
  - unfold W.reward_feet_air_time.
    change (snd (math.normalize (firstn 3 [0; 0; 1]))) with (command_norm [0; 0; 1]).
    rewrite command_norm_yaw_only, Rltb_true by lra.
    unfold sum, vmask, vsubs. simpl. rewrite clip_inside; lra.
  - rewrite HK. lra.
Qed.

(** C3, amended: the gate of [reward_feet_air_time] tests the norm of
    the whole command, yaw rate included.  Whenever
    [math.normalize(commands[:3])[1]] is at most 0.05 the term is exactly
    0 in both files, whatever the air times and the contact mask. *)
Theorem C3_feet_air_time_zero_below_gate
    (air_time : list R) (first_contact : list bool) (commands : list R)
    (minimum_airtime : R) :
  command_norm commands <= 5 / 100 ->
  K.reward_feet_air_time air_time first_contact commands minimum_airtime = 0 /\
  W.reward_feet_air_time air_time first_contact commands minimum_airtime = 0.
Proof.
  intro H. unfold K.reward_feet_air_time, W.reward_feet_air_time.
  change (snd (math.normalize (firstn 3 commands))) with (command_norm commands).
  rewrite Rltb_false by exact H. simpl.
  rewrite Rmult_0_r. split; rewrite clip_inside; lra.
Qed.

Lemma C3_feet_air_time_zero_witness :
  K.reward_feet_air_time [1] [true] [1 / 100; 0; 0] (1 / 10) = 0 /\
  W.reward_feet_air_time [1] [true] [1 / 100; 0; 0] (1 / 10) = 0.
Proof.
  apply (C3_feet_air_time_zero_below_gate [1] [true] [1 / 100; 0; 0] (1 / 10)).
  rewrite command_norm_forward_only. lra.
Defined.

(** ** Stand still *)

Lemma twelve_pi_pos : 0 < 12 * PI.
Proof. pose proof PI_RGT_0. lra. Qed.

Lemma pose_deviation_nonneg (joint_angles default_pose : list R) :
  0 <= pose_deviation joint_angles default_pose.
Proof. apply sum_abs_nonneg. Qed.

Lemma pose_deviation_same (pose : list R) : pose_deviation pose pose = 0.
Proof. apply vsub_diag. Qed.

Lemma stand_still_K_unfold (commands joint_angles default_pose : list R) (thr : R) :
  K.reward_stand_still commands joint_angles default_pose thr =
  clip (pose_deviation joint_angles default_pose
        * b2r (Rltb (command_norm commands) thr) / (12 * PI)) 0 1.
Proof. reflexivity. Qed.

Lemma stand_still_W_unfold (commands joint_angles default_pose : list R) (thr : R) :
  W.reward_stand_still commands joint_angles default_pose thr =
  clip (pose_deviation joint_angles default_pose
        * b2r (Rltb (command_norm commands) thr)) (-1000) 1000.
Proof. reflexivity. Qed.

Lemma stand_still_closed (commands joint_angles default_pose : list R) (thr : R) :
  thr <= command_norm commands ->
  K.reward_stand_still commands joint_angles default_pose thr = 0 /\
  W.reward_stand_still commands joint_angles default_pose thr = 0.
Proof.
  intro H. rewrite stand_still_K_unfold, stand_still_W_unfold.
  rewrite Rltb_false by exact H. simpl. rewrite Rmult_0_r.
  split; rewrite clip_inside; lra.
Qed.

Lemma stand_still_open (commands joint_angles default_pose : list R) (thr : R) :
  command_norm commands < thr ->
  K.reward_stand_still commands joint_angles default_pose thr =
    clip (pose_deviation joint_angles default_pose / (12 * PI)) 0 1 /\
  W.reward_stand_still commands joint_angles default_pose thr =
    clip (pose_deviation joint_angles default_pose) (-1000) 1000.
Proof.
  intro H. rewrite stand_still_K_unfold, stand_still_W_unfold.
  rewrite Rltb_true by exact H. simpl. rewrite Rmult_1_r. split; reflexivity.
Qed.

Lemma pose_deviation_one : pose_deviation [1] [0] = 1.
Proof.
  unfold pose_deviation, vsub, sum. simpl.
  replace (1 - 0) with 1 by lra. rewrite Rabs_R1. lra.
Qed.

Lemma pose_deviation_two : pose_deviation [2] [0] = 2.
Proof.
  unfold pose_deviation, vsub, sum. simpl.
  rewrite Rabs_right; lra.
Qed.

(** C4, as the spec states it, fails in its second half: under a pure
    yaw command the planar norm (0) is below the threshold (0.1), yet the
    term is 0 for a pose deviation of 1 and for a pose deviation of 2; it
    does not scale with the deviation, which alone would give
    [clip(1 / (12 pi), 0, 1) > 0]. *)
Lemma C4_planar_gate_counterexample :
  planar_norm [0; 0; 1] < 1 / 10 /\
  pose_deviation [1] [0] = 1 /\
  pose_deviation [2] [0] = 2 /\
  K.reward_stand_still [0; 0; 1] [1] [0] (1 / 10) = 0 /\
  K.reward_stand_still [0; 0; 1] [2] [0] (1 / 10) = 0 /\
  W.reward_stand_still [0; 0; 1] [1] [0] (1 / 10) = 0 /\
  W.reward_stand_still [0; 0; 1] [2] [0] (1 / 10) = 0 /\
  0 < clip (pose_deviation [1] [0] / (12 * PI)) 0 1.
Proof.
  assert (Hc : 1 / 10 <= command_norm [0; 0; 1])
    by (rewrite command_norm_yaw_only; lra).
  pose proof (stand_still_closed [0; 0; 1] [1] [0] (1 / 10) Hc) as [K1 W1].
  pose proof (stand_still_closed [0; 0; 1] [2] [0] (1 / 10) Hc) as [K2 W2].
  repeat split; try assumption.
  - rewrite planar_norm_yaw_only. lra.
  - apply pose_deviation_one.
  - apply pose_deviation_two.
  - rewrite pose_deviation_one.
    pose proof twelve_pi_pos as Hp. pose proof PI_4 as H4.
    assert (0 < 1 / (12 * PI)) by (apply Rdiv_lt_0_compat; lra).
    assert (1 / (12 * PI) <= 1).
    { apply Rmult_le_reg_r with (12 * PI); [exact Hp |].
      unfold Rdiv. rewrite Rmult_assoc, Rinv_l by lra.
      pose proof PI2_3_2. unfold PI2 in *. lra. }
    rewrite clip_inside; lra.
Qed.

(** C4, amended: the gate of [reward_stand_still] tests the norm of the
    whole command, yaw rate included.  The term is exactly 0 whenever
    that norm is at least the threshold, hence also whenever the planar
    norm is; when the whole-command norm is below the threshold the term
    is the clipped (and, in the unit-interval file, scaled) sum of
    absolute joint-angle deviations.  It is never negative, and it is 0
    for the command [0, 0, 0] with the joints at the default pose. *)
Theorem C4_stand_still_gate
    (commands joint_angles default_pose : list R) (command_threshold : R) :
  (command_threshold <= command_norm commands ->
     K.reward_stand_still commands joint_angles default_pose command_threshold = 0 /\
     W.reward_stand_still commands joint_angles default_pose command_threshold = 0) /\
  (command_threshold <= planar_norm commands ->
     K.reward_stand_still commands joint_angles default_pose command_threshold = 0 /\
     W.reward_stand_still commands joint_angles default_pose command_threshold = 0) /\
  (command_norm commands < command_threshold ->
     K.reward_stand_still commands joint_angles default_pose command_threshold =
       clip (pose_deviation joint_angles default_pose / (12 * PI)) 0 1 /\
     W.reward_stand_still commands joint_angles default_pose command_threshold =
       clip (pose_deviation joint_angles default_pose) (-1000) 1000) /\
  0 <= K.reward_stand_still commands joint_angles default_pose command_threshold /\
  0 <= W.reward_stand_still commands joint_angles default_pose command_threshold /\
  K.reward_stand_still [0; 0; 0] default_pose default_pose command_threshold = 0 /\
  W.reward_stand_still [0; 0; 0] default_pose default_pose command_threshold = 0.
Proof.
  assert (Hzero : forall c,
    K.reward_stand_still c default_pose default_pose command_threshold = 0 /\
    W.reward_stand_still c default_pose default_pose command_threshold = 0).
  { intro c. rewrite stand_still_K_unfold, stand_still_W_unfold.
    rewrite pose_deviation_same, Rmult_0_l.
    split; rewrite clip_inside; lra. }
  split; [apply stand_still_closed |].
  split.
  { intro H. apply stand_still_closed.
    pose proof (planar_norm_le_command_norm commands). lra. }
  split; [apply stand_still_open |].
  split.
  { apply (proj1 (clip_unit _)). }
  split.
  { rewrite stand_still_W_unfold.
    apply Rle_trans with (clip 0 (-1000) 1000).
    - rewrite clip_inside; lra.
    - apply clip_mono. apply Rmult_le_pos.
      + apply pose_deviation_nonneg.
      + apply b2r_range. }
  apply Hzero.
Qed.

Lemma C4_stand_still_gate_witness :
  K.reward_stand_still [0; 0; 1] [1] [0] (1 / 10) = 0 /\
  K.reward_stand_still [0; 0; 0] [1] [0] (1 / 10) = clip (1 / (12 * PI)) 0 1.
Proof.
  split.
  - apply (proj1 (C4_stand_still_gate [0; 0; 1] [1] [0] (1 / 10))).
    rewrite command_norm_yaw_only. lra.
  - assert (Hopen : command_norm [0; 0; 0] < 1 / 10)
      by (rewrite command_norm_zero; lra).
    destruct (proj1 (proj2 (proj2 (C4_stand_still_gate [0; 0; 0] [1] [0] (1 / 10))))
                    Hopen) as [HK _].
    rewrite HK, pose_deviation_one. reflexivity.
Defined.

(** ** Exponential tracking terms *)

Lemma exp_decay_range (e d : R) : 0 <= e -> 0 < d -> 0 < exp (- e / d) <= 1.
Proof.
  intros He Hd. split.
  - apply exp_pos.
  - rewrite <- exp_0.
    assert (H : - e / d <= 0).
    { unfold Rdiv. assert (0 < / d) by (apply Rinv_0_lt_compat; exact Hd). nra. }
    destruct H as [H | H].
    + left. apply exp_increasing. exact H.
    + rewrite H. right. reflexivity.
Qed.

Lemma exp_decay_peak (d : R) : exp (- 0 / d) = 1.
Proof. replace (- 0 / d) with 0 by (unfold Rdiv; ring). apply exp_0. Qed.

Lemma exp_decay_strict (e e' d : R) :
  0 < d -> e < e' -> exp (- e' / d) < exp (- e / d).
Proof.
  intros Hd H. apply exp_increasing.
  unfold Rdiv. assert (0 < / d) by (apply Rinv_0_lt_compat; exact Hd). nra.
Qed.

Lemma guarded_sigma_pos (tracking_sigma : R) : 0 <= tracking_sigma -> 0 < tracking_sigma + EPS.
Proof. pose proof EPS_pos. lra. Qed.

Lemma K_lin_vel_error_nonneg c x xd : 0 <= K.lin_vel_error c x xd.
Proof. apply sum_squares_nonneg. Qed.

Lemma K_ang_vel_error_nonneg c x xd : 0 <= K.ang_vel_error c x xd.
Proof. apply square_nonneg. Qed.

Lemma K_orientation_error_nonneg d x : 0 <= K.orientation_error d x.
Proof. apply sum_squares_nonneg. Qed.

(** With [tracking_sigma + EPS] positive the final clip of a tracking
    term leaves the exponential as it is, in either file. *)
Lemma clip_exp_decay (e d lo hi : R) :
  0 <= e -> 0 < d -> lo <= 0 -> 1 <= hi ->
  clip (exp (- e / d)) lo hi = exp (- e / d).
Proof.
  intros He Hd Hlo Hhi. pose proof (exp_decay_range e d He Hd).
  apply clip_inside. lra.
Qed.

Lemma K_tracking_lin_vel_exp c x xd sigma :
  0 < sigma + EPS ->
  K.reward_tracking_lin_vel c x xd sigma = exp (- K.lin_vel_error c x xd / (sigma + EPS)).
Proof.
  intro H. unfold K.reward_tracking_lin_vel.
  apply clip_exp_decay; [apply K_lin_vel_error_nonneg | exact H | lra | lra].
Qed.

Lemma K_tracking_ang_vel_exp c x xd sigma :
  0 < sigma + EPS ->
  K.reward_tracking_ang_vel c x xd sigma = exp (- K.ang_vel_error c x xd / (sigma + EPS)).
Proof.
  intro H. unfold K.reward_tracking_ang_vel.
  apply clip_exp_decay; [apply K_ang_vel_error_nonneg | exact H | lra | lra].
Qed.

Lemma K_tracking_orientation_exp d x sigma :
  0 < sigma + EPS ->
  K.reward_tracking_orientation d x sigma = exp (- K.orientation_error d x / (sigma + EPS)).
Proof.
  intro H. unfold K.reward_tracking_orientation.
  apply clip_exp_decay; [apply K_orientation_error_nonneg | exact H | lra | lra].
Qed.

Lemma lin_vel_error_at_rest (vx vy wz : R) :
  K.lin_vel_error [vx; vy; wz] upright at_rest = vx * vx + vy * vy.
Proof.
  unfold K.lin_vel_error, math.rotate, math.quat_inv, vsub, sum, square,
    xy, add3, scale3, cross3, dot3, base3, baseq.
  simpl. ring.
Qed.

(** ** Geometry collisions *)

Lemma fold_left_plus (f : Z -> R) (ids : list Z) (a : R) :
  fold_left (fun acc id => acc + f id) ids a = a + sum (map f ids).
Proof.
  revert a. induction ids as [|id ids IH]; intro a; simpl.
  - lra.
  - rewrite IH. unfold sum. simpl. lra.
Qed.

Lemma collision_count_sum (cs : list contact_pair) (ids : list Z) :
  collision_count cs ids = sum (map (touching cs) ids).
Proof. unfold collision_count. rewrite fold_left_plus. lra. Qed.

Lemma touching_app (cs1 cs2 : list contact_pair) (id : Z) :
  touching (cs1 ++ cs2) id = touching cs1 id + touching cs2 id.
Proof. unfold touching. rewrite map_app. apply sum_app. Qed.

Lemma touching_one (c : contact_pair) (id : Z) :
  touching [c] id = b2r (touches c id && Rltb (dist c) 0).
Proof. unfold touching, touches, sum. simpl. lra. Qed.

Lemma touching_nonneg (cs : list contact_pair) (id : Z) : 0 <= touching cs id.
Proof.
  unfold touching. apply sum_nonneg. intros a Ha.
  apply in_map_iff in Ha. destruct Ha as [c [<- _]]. apply b2r_range.
Qed.

Lemma collision_count_nonneg (cs : list contact_pair) (ids : list Z) :
  0 <= collision_count cs ids.
Proof.
  rewrite collision_count_sum. apply sum_nonneg. intros a Ha.
  apply in_map_iff in Ha. destruct Ha as [id [<- _]]. apply touching_nonneg.
Qed.

(** Inserting a row adds that row's own count. *)
Lemma collision_count_insert (cs1 cs2 : list contact_pair) (c : contact_pair)
    (ids : list Z) :
  collision_count (cs1 ++ c :: cs2) ids =
  collision_count (cs1 ++ cs2) ids + collision_count [c] ids.
Proof.
  rewrite !collision_count_sum.
  induction ids as [|id ids IH]; simpl.
  - unfold sum. simpl. lra.
  - unfold sum in *. simpl. rewrite IH.
    rewrite !touching_app.
    change (c :: cs2) with ([c] ++ cs2). rewrite touching_app. lra.
Qed.

Lemma touching_no_penetration (cs : list contact_pair) (id : Z) :
  (forall c, In c cs -> 0 <= dist c) -> touching cs id = 0.
Proof.
  induction cs as [|c cs IH]; intro H.
  - reflexivity.
  - change (c :: cs) with ([c] ++ cs). rewrite touching_app, touching_one.
    rewrite IH by (intros c' Hc'; apply H; right; exact Hc').
    rewrite Rltb_false by (apply H; left; reflexivity).
    rewrite andb_false_r. simpl. lra.
Qed.

Lemma collision_count_no_penetration (cs : list contact_pair) (ids : list Z) :
  (forall c, In c cs -> 0 <= dist c) -> collision_count cs ids = 0.
Proof.
  intro H. rewrite collision_count_sum.
  induction ids as [|id ids IH]; simpl.
  - reflexivity.
  - unfold sum in *. simpl. rewrite IH, touching_no_penetration by exact H. lra.
Qed.

(** A penetrating row counts once for every watched id it touches. *)
Lemma collision_count_one (c : contact_pair) (ids : list Z) :
  dist c < 0 -> collision_count [c] ids = INR (matching_ids c ids).
Proof.
  intro H. rewrite collision_count_sum. unfold matching_ids.
  induction ids as [|id ids IH].
  - reflexivity.
  - cbn [map filter]. unfold sum in *. cbn [fold_right]. rewrite IH.
    rewrite touching_one, Rltb_true by exact H. rewrite andb_true_r.
    destruct (touches c id).
    + cbn [List.length]. rewrite S_INR. simpl. lra.
    + simpl. lra.
Qed.

Lemma matching_ids_pos (c : contact_pair) (ids : list Z) :
  (exists id, In id ids /\ (geom1 c = id \/ geom2 c = id)) ->
  (1 <= matching_ids c ids)%nat.
Proof.
  intros [id [Hin Hid]]. unfold matching_ids.
  assert (Hf : In id (filter (touches c) ids)).
  { apply filter_In. split; [exact Hin |].
    unfold touches. apply orb_true_iff.
    destruct Hid as [Hid | Hid]; [left | right]; apply Z.eqb_eq; exact Hid. }
  destruct (filter (touches c) ids); [contradiction | simpl; lia].
Qed.

Lemma collision_count_one_ge (c : contact_pair) (ids : list Z) :
  dist c < 0 ->
  (exists id, In id ids /\ (geom1 c = id \/ geom2 c = id)) ->
  1 <= collision_count [c] ids.
Proof.
  intros Hd Hid. rewrite collision_count_one by exact Hd.
  apply matching_ids_pos in Hid. apply (le_INR 1). exact Hid.
Qed.

Lemma clip_strict (x y lo hi : R) :
  lo < hi -> x < y -> x < hi -> lo < y -> clip x lo hi < clip y lo hi.
Proof.
  intros Hlh Hxy Hx Hy. unfold clip, Rmin, Rmax.
  destruct (Rle_dec x lo); destruct (Rle_dec y lo);
    repeat match goal with |- context [Rle_dec ?a ?b] => destruct (Rle_dec a b) end; lra.
Qed.

Lemma K_geom_collision_unfold (st : State) (ids : list Z) :
  K.reward_geom_collision st ids = clip (collision_count (contact st) ids / 10) 0 1.
Proof. reflexivity. Qed.

Lemma W_geom_collision_unfold (st : State) (ids : list Z) :
  W.reward_geom_collision st ids = clip (collision_count (contact st) ids) (-1000) 1000.
Proof. reflexivity. Qed.

(** Ten penetrating contacts on geometry 9, and an eleventh. *)
Lemma count_of_ten :
  collision_count (repeat {| geom1 := 5; geom2 := 9; dist := - (1 / 100) |} 10) [9%Z] = 10.
Proof.
  unfold collision_count, touching, sum. simpl.
  rewrite Rltb_true by lra. simpl. lra.
Qed.

Lemma count_of_eleven :
  collision_count (repeat {| geom1 := 5; geom2 := 9; dist := - (1 / 100) |} 11) [9%Z] = 11.
Proof.
  unfold collision_count, touching, sum. simpl.
  rewrite Rltb_true by lra. simpl. lra.
Qed.

(** C6, as the spec states it, fails in its second part: with ten
    penetrating contacts on a watched geometry the unit-interval value is
    1, and an eleventh such contact leaves it at 1. *)
Lemma C6_saturation_counterexample :
  K.reward_geom_collision
    (contacts_only (repeat {| geom1 := 5; geom2 := 9; dist := - (1 / 100) |} 10)) [9%Z] = 1 /\
  K.reward_geom_collision
    (contacts_only (repeat {| geom1 := 5; geom2 := 9; dist := - (1 / 100) |} 11)) [9%Z] = 1 /\
  ~ (K.reward_geom_collision
       (contacts_only (repeat {| geom1 := 5; geom2 := 9; dist := - (1 / 100) |} 10)) [9%Z]
     < K.reward_geom_collision
         (contacts_only (repeat {| geom1 := 5; geom2 := 9; dist := - (1 / 100) |} 11)) [9%Z]).
Proof.
  rewrite !K_geom_collision_unfold. unfold contacts_only. cbn [contact].
  rewrite count_of_ten, count_of_eleven.
  rewrite (clip_above (11 / 10)) by lra.
  rewrite (clip_inside (10 / 10)) by lra.
  repeat split; lra.
Qed.

Lemma count_of_scenario :
  collision_count [ {| geom1 := 5; geom2 := 9; dist := - (1 / 100) |};
                    {| geom1 := 1; geom2 := 2; dist := 1 / 2 |} ] [9%Z] = 1.
Proof.
  unfold collision_count, touching, sum. simpl.
  rewrite Rltb_true by lra. simpl. lra.
Qed.

(** C6, amended: [reward_geom_collision] is 0 when no contact has a
    negative distance.  An additional penetrating contact that touches a
    watched geometry id strictly increases the accumulated count; it
    strictly increases the term as long as the count before it is below
    the point where the clip saturates (10 in the unit-interval file,
    1000 in the signed-wide one).  For the contacts (5, 9) at distance
    -0.01 and (1, 2) at distance 0.5 with watched id 9 the unit-interval
    value is 0.1. *)
Theorem C6_geom_collision_counts :
  (forall st ids,
     (forall c, In c (contact st) -> 0 <= dist c) ->
     K.reward_geom_collision st ids = 0 /\ W.reward_geom_collision st ids = 0) /\
  (forall st cs1 cs2 c ids,
     dist c < 0 ->
     (exists id, In id ids /\ (geom1 c = id \/ geom2 c = id)) ->
     collision_count (cs1 ++ cs2) ids < collision_count (cs1 ++ c :: cs2) ids /\
     (collision_count (cs1 ++ cs2) ids < 10 ->
        K.reward_geom_collision (set_contact st (cs1 ++ cs2)) ids
          < K.reward_geom_collision (set_contact st (cs1 ++ c :: cs2)) ids) /\
     (collision_count (cs1 ++ cs2) ids < 1000 ->
        W.reward_geom_collision (set_contact st (cs1 ++ cs2)) ids
          < W.reward_geom_collision (set_contact st (cs1 ++ c :: cs2)) ids)) /\
  K.reward_geom_collision
    (contacts_only [ {| geom1 := 5; geom2 := 9; dist := - (1 / 100) |};
                     {| geom1 := 1; geom2 := 2; dist := 1 / 2 |} ]) [9%Z] = 1 / 10.
Proof.
  split; [| split].
  - intros st ids H.
    rewrite K_geom_collision_unfold, W_geom_collision_unfold.
    rewrite collision_count_no_penetration by exact H.
    split; rewrite clip_inside; lra.
  - intros st cs1 cs2 c ids Hd Hid.
    pose proof (collision_count_one_ge c ids Hd Hid) as Hone.
    pose proof (collision_count_nonneg (cs1 ++ cs2) ids) as Hpos.
    pose proof (collision_count_insert cs1 cs2 c ids) as Hins.
    split; [lra |]. split; intro Hlt.
    + rewrite !K_geom_collision_unfold. unfold set_contact. cbn [contact].
      apply clip_strict; lra.
    + rewrite !W_geom_collision_unfold. unfold set_contact. cbn [contact].
      apply clip_strict; lra.
  - rewrite K_geom_collision_unfold. unfold contacts_only. cbn [contact].
    rewrite count_of_scenario. rewrite clip_inside; lra.
Qed.

Lemma C6_geom_collision_witness :
  K.reward_geom_collision
    (contacts_only [ {| geom1 := 1; geom2 := 2; dist := 1 / 2 |} ]) [9%Z] = 0 /\
  K.reward_geom_collision
    (set_contact (contacts_only []) ([] ++ [ {| geom1 := 1; geom2 := 2; dist := 1 / 2 |} ])) [9%Z]
  < K.reward_geom_collision
      (set_contact (contacts_only [])
         ([] ++ {| geom1 := 5; geom2 := 9; dist := - (1 / 100) |}
             :: [ {| geom1 := 1; geom2 := 2; dist := 1 / 2 |} ])) [9%Z].
Proof.
  destruct C6_geom_collision_counts as [Hzero [Hstep _]].
  split.
  - apply Hzero. intros c [<- | []]. simpl. lra.
  - apply Hstep.
    + simpl. lra.
    + exists 9%Z. split; [left; reflexivity | right; reflexivity].
    + rewrite collision_count_no_penetration; [lra |].
      intros c [<- | []]. simpl. lra.
Defined.

(** C10: the unit-interval [reward_geom_collision] saturates.  Once the
    count accumulated over the watched ids is at least 10 the value is
    exactly 1, and one more contact of any kind leaves it unchanged.  A
    penetrating contact is counted once for every watched id it touches,
    so a pair whose two geometry ids are both watched counts twice. *)
Theorem C10_geom_collision_saturates :
  (forall st ids,
     10 <= collision_count (contact st) ids ->
     K.reward_geom_collision st ids = 1) /\
  (forall st cs1 cs2 c ids,
     10 <= collision_count (cs1 ++ cs2) ids ->
     K.reward_geom_collision (set_contact st (cs1 ++ c :: cs2)) ids = 1 /\
     K.reward_geom_collision (set_contact st (cs1 ++ c :: cs2)) ids
       = K.reward_geom_collision (set_contact st (cs1 ++ cs2)) ids) /\
  (forall c ids,
     dist c < 0 -> collision_count [c] ids = INR (matching_ids c ids)) /\
  (forall g1 g2 d,
     d < 0 ->
     collision_count [ {| geom1 := g1; geom2 := g2; dist := d |} ] [g1; g2] = 2).
Proof.
  assert (Hsat : forall st ids,
    10 <= collision_count (contact st) ids -> K.reward_geom_collision st ids = 1).
  { intros st ids H. rewrite K_geom_collision_unfold.
    apply clip_above; lra. }
  split; [exact Hsat |]. split; [| split].
  - intros st cs1 cs2 c ids H.
    assert (H' : 10 <= collision_count (cs1 ++ c :: cs2) ids).
    { rewrite collision_count_insert.
      pose proof (collision_count_nonneg [c] ids). lra. }
    rewrite (Hsat (set_contact st (cs1 ++ c :: cs2))) by exact H'.
    rewrite (Hsat (set_contact st (cs1 ++ cs2))) by exact H.
    split; reflexivity.
  - apply collision_count_one.
  - intros g1 g2 d Hd.
    rewrite collision_count_one by exact Hd.
    unfold matching_ids, touches. cbn [filter geom1 geom2].
    rewrite Z.eqb_refl. cbn [orb].
    rewrite Z.eqb_refl, orb_true_r. reflexivity.
Qed.

Lemma C10_geom_collision_witness :
  K.reward_geom_collision
    (contacts_only (repeat {| geom1 := 5; geom2 := 9; dist := - (1 / 100) |} 10)) [9%Z] = 1 /\
  collision_count [ {| geom1 := 5; geom2 := 9; dist := - (1 / 100) |} ] [5%Z; 9%Z] = 2.
Proof.
  destruct C10_geom_collision_saturates as [Hsat [_ [_ Hboth]]].
  split.
  - apply Hsat. unfold contacts_only. cbn [contact]. rewrite count_of_ten. lra.
  - apply Hboth. lra.
Defined.

(** ** Special values and overflow *)

Section SpecialValues.
(* The real-valued terms, named before the modules of the same names
   come into scope. *)
Local Abbreviation real_K_reward_torques := K.reward_torques.
Local Abbreviation real_W_reward_torques := W.reward_torques.
Local Abbreviation real_K_reward_joint_acceleration := K.reward_joint_acceleration.
Local Abbreviation real_W_reward_joint_acceleration := W.reward_joint_acceleration.
Import NonFinite.

Lemma fmax_large : 120000 <= fmax.
Proof.
  unfold fmax.
  assert (H1 : 2 ^ 17 <= 2 ^ 127) by (apply Rle_pow; [lra | lia]).
  assert (H2 : 2 ^ 17 = 131072) by (simpl; lra).
  assert (H3 : 0 < / 2 ^ 23 <= 1).
  { split.
    - apply Rinv_0_lt_compat. apply pow_lt. lra.
    - rewrite <- Rinv_1. apply Rinv_le_contravar; [lra |].
      apply pow_R1_Rle. lra. }
  nra.
Qed.

Lemma overflow_in_range (r : R) : - fmax <= r <= fmax -> overflow r = Fin r.
Proof.
  intro H. unfold overflow.
  rewrite (Rltb_false fmax r), (Rltb_false r (- fmax)) by lra. reflexivity.
Qed.

Lemma overflow_above (r : R) : fmax < r -> overflow r = PInf.
Proof. intro H. unfold overflow. rewrite Rltb_true by exact H. reflexivity. Qed.

Lemma overflow_below (r : R) : r < - fmax -> overflow r = NInf.
Proof.
  intro H. pose proof fmax_large. unfold overflow.
  rewrite (Rltb_false fmax r), (Rltb_true r (- fmax)) by lra. reflexivity.
Qed.

Lemma overflow_cases (r : R) :
  (- fmax <= r <= fmax /\ overflow r = Fin r)
  \/ (fmax < r /\ overflow r = PInf)
  \/ (r < - fmax /\ overflow r = NInf).
Proof.
  destruct (Rlt_dec fmax r) as [H | H].
  - right. left. split; [exact H | apply overflow_above; exact H].
  - destruct (Rlt_dec r (- fmax)) as [H' | H'].
    + right. right. split; [exact H' | apply overflow_below; exact H'].
    + left. split; [lra | apply overflow_in_range; lra].
Qed.

Lemma fadd_NaN_r (x : fval) : fadd x NaN = NaN.
Proof. destruct x; reflexivity. Qed.

(** Sums of non-negative numbers overflow exactly when the exact sum
    leaves the range. *)
Lemma fadd_overflow_nonneg (a b : R) :
  0 <= a -> 0 <= b -> fadd (overflow a) (overflow b) = overflow (a + b).
Proof.
  intros Ha Hb. pose proof fmax_large as Hm.
  destruct (overflow_cases a) as [[Ra ->] | [[Ra ->] | [Ra _]]]; [| | lra];
    destruct (overflow_cases b) as [[Rb ->] | [[Rb ->] | [Rb _]]]; try lra.
  - reflexivity.
  - cbn. symmetry. apply overflow_above. lra.
  - cbn. symmetry. apply overflow_above. lra.
  - cbn. symmetry. apply overflow_above. lra.
Qed.

Lemma fsum_overflow_nonneg (w : list R) :
  Forall (fun a => 0 <= a) w -> fsum (map overflow w) = overflow (sum w).
Proof.
  pose proof fmax_large as Hm.
  induction 1 as [|a w Ha Hw IH].
  - cbn. symmetry. apply overflow_in_range. lra.
  - cbn [map fsum fold_right].
    change (fold_right fadd (Fin 0) (map overflow w)) with (fsum (map overflow w)).
    rewrite IH. apply fadd_overflow_nonneg; [exact Ha |].
    apply sum_nonneg. intros b Hb.
    rewrite Forall_forall in Hw. apply Hw. exact Hb.
Qed.

Lemma squares_nonneg (v : list R) : Forall (fun a => 0 <= a) (map square v).
Proof.
  apply Forall_forall. intros a Ha. apply in_map_iff in Ha.
  destruct Ha as [b [<- _]]. apply square_nonneg.
Qed.

Lemma fsquare_finite (v : list R) :
  map fsquare (finite v) = map overflow (map square v).
Proof. unfold finite. rewrite !map_map. reflexivity. Qed.

Lemma fsum_squares_finite (v : list R) :
  fsum (map fsquare (finite v)) = overflow (sum (map square v)).
Proof. rewrite fsquare_finite. apply fsum_overflow_nonneg, squares_nonneg. Qed.

Lemma fclip_finite (a lo hi : R) : fclip (Fin a) (Fin lo) (Fin hi) = Fin (clip a lo hi).
Proof. reflexivity. Qed.

(** Clipping absorbs an overflow of a non-negative quantity: the float
    computation returns what the exact one does. *)
Lemma fclip_overflow (s lo hi : R) :
  0 <= s -> lo <= hi -> hi <= fmax ->
  fclip (overflow s) (Fin lo) (Fin hi) = Fin (clip s lo hi).
Proof.
  intros Hs Hlh Hhi. pose proof fmax_large as Hm.
  destruct (overflow_cases s) as [[_ ->] | [[Hr ->] | [Hr _]]]; [| | lra].
  - reflexivity.
  - cbn. rewrite clip_above by lra. reflexivity.
Qed.

Lemma fclip_fdiv_overflow (s c hi : R) :
  0 <= s -> 1 <= c -> 0 <= hi -> hi * c <= fmax ->
  fclip (fdiv (overflow s) (Fin c)) (Fin 0) (Fin hi) = Fin (clip (s / c) 0 hi).
Proof.
  intros Hs Hc Hh Hhi. pose proof fmax_large as Hm.
  assert (Hq : 0 <= s / c <= s).
  { assert (0 < / c <= 1).
    { split; [apply Rinv_0_lt_compat; lra |].
      rewrite <- Rinv_1. apply Rinv_le_contravar; lra. }
    unfold Rdiv. nra. }
  destruct (overflow_cases s) as [[Hr ->] | [[Hr ->] | [Hr _]]]; [| | lra].
  - unfold fdiv. destruct (Req_dec_T c 0) as [Hc0 | _]; [lra |].
    rewrite overflow_in_range by lra. reflexivity.
  - cbn. rewrite Rltb_false by lra. cbn.
    rewrite clip_above; [reflexivity | lra |].
    apply Rmult_le_reg_r with c; [lra |].
    unfold Rdiv. rewrite Rmult_assoc, Rinv_l by lra. lra.
Qed.

(** On finite torques of any magnitude the float term returns the value
    of the real-valued term of module [K] or [W]. *)
Lemma K_torques_finite (torques : list R) :
  NonFinite.K.reward_torques (finite torques)
    = Returns (Fin (real_K_reward_torques torques)).
Proof.
  pose proof fmax_large as Hm.
  unfold NonFinite.K.reward_torques.
  rewrite fsum_squares_finite, fclip_fdiv_overflow;
    [reflexivity | apply sum_squares_nonneg | lra | lra | lra].
Qed.

Lemma W_torques_finite (torques : list R) :
  NonFinite.W.reward_torques (finite torques)
    = Returns (Fin (real_W_reward_torques torques)).
Proof.
  pose proof fmax_large as Hm.
  unfold NonFinite.W.reward_torques.
  rewrite fsum_squares_finite, fclip_overflow;
    [reflexivity | apply sum_squares_nonneg | lra | lra].
Qed.

Lemma fsum_squares_NaN (torques : list fval) :
  In NaN torques -> fsum (map fsquare torques) = NaN.
Proof.
  induction torques as [|a ts IH]; intro H.
  - contradiction.
  - cbn [map fsum fold_right]. destruct H as [-> | H].
    + reflexivity.
    + change (fold_right fadd (Fin 0) (map fsquare ts)) with (fsum (map fsquare ts)).
      rewrite IH by exact H. apply fadd_NaN_r.
Qed.

Lemma fadd_PInf_overflow_nonneg (s : R) : 0 <= s -> fadd PInf (overflow s) = PInf.
Proof.
  intro Hs. pose proof fmax_large as Hm.
  destruct (overflow_cases s) as [[_ ->] | [[_ ->] | [Hr _]]]; [| | lra]; reflexivity.
Qed.

Lemma fadd_overflow_nonneg_PInf (s : R) : 0 <= s -> fadd (overflow s) PInf = PInf.
Proof.
  intro Hs. pose proof fmax_large as Hm.
  destruct (overflow_cases s) as [[_ ->] | [[_ ->] | [Hr _]]]; [| | lra]; reflexivity.
Qed.

(** Without a not-a-number entry the sum of squares is the (possibly
    overflowed) exact sum when every entry is finite, and plus infinity
    when one is infinite. *)
Lemma fsum_squares_cases (torques : list fval) :
  ~ In NaN torques ->
  (exists v, torques = finite v
             /\ fsum (map fsquare torques) = overflow (sum (map square v)))
  \/ ((In PInf torques \/ In NInf torques) /\ fsum (map fsquare torques) = PInf).
Proof.
  induction torques as [|a ts IH]; intro Hn.
  - left. exists []. split; [reflexivity | apply (fsum_squares_finite [])].
  - assert (Hts : ~ In NaN ts) by (intro H; apply Hn; right; exact H).
    specialize (IH Hts). cbn [map fsum fold_right].
    change (fold_right fadd (Fin 0) (map fsquare ts)) with (fsum (map fsquare ts)).
    destruct a as [r | | |].
    + destruct IH as [[v [-> Hv]] | [Hinf Hs]].
      * left. exists (r :: v). split; [reflexivity |].
        apply (fsum_squares_finite (r :: v)).
      * right. split; [destruct Hinf; [left | right]; right; assumption |].
        rewrite Hs. apply (fadd_overflow_nonneg_PInf (r * r)).
        apply (square_nonneg r).
    + right. split; [left; left; reflexivity |].
      destruct IH as [[v [_ ->]] | [_ ->]];
        [apply fadd_PInf_overflow_nonneg, sum_squares_nonneg | reflexivity].
    + right. split; [right; left; reflexivity |].
      destruct IH as [[v [_ ->]] | [_ ->]];
        [apply fadd_PInf_overflow_nonneg, sum_squares_nonneg | reflexivity].
    + exfalso. apply Hn. left. reflexivity.
Qed.

Lemma finite_no_special (v : list R) (x : fval) : In x (finite v) -> exists r, x = Fin r.
Proof.
  unfold finite. intro H. apply in_map_iff in H.
  destruct H as [r [<- _]]. exists r. reflexivity.
Qed.

(** One entry of the acceleration: whichever intermediate result
    overflows, the square is the (possibly overflowed) exact square.  The
    denominator lies between 0 and 1, as [dt + EPS] does for a time step
    of a simulation. *)
Lemma acceleration_entry (a b d : R) :
  0 < d <= 1 ->
  fsquare (fdiv (fsub (Fin a) (Fin b)) (Fin d)) = overflow (square ((a - b) / d)).
Proof.
  intros Hd. pose proof fmax_large as Hm.
  assert (Hinv : 1 <= / d).
  { rewrite <- Rinv_1. apply Rinv_le_contravar; lra. }
  assert (Hbig : forall q, fmax < Rabs q -> overflow (square q) = PInf).
  { intros q Hq. apply overflow_above. unfold square.
    replace (q * q) with (Rabs q * Rabs q)
      by (unfold Rabs; destruct (Rcase_abs q); ring).
    nra. }
  assert (Hquot : forall delta, fmax < Rabs delta -> fmax < Rabs (delta / d)).
  { intros delta Hdelta. unfold Rdiv. rewrite Rabs_mult.
    rewrite (Rabs_right (/ d)) by lra.
    pose proof (Rabs_pos delta). nra. }
  unfold fsub. cbn [fneg fadd]. fold (a - b).
  destruct (overflow_cases (a - b)) as [[Hr ->] | [[Hr ->] | [Hr ->]]].
  - unfold fdiv. destruct (Req_dec_T d 0) as [Hd0 | _]; [lra |].
    destruct (overflow_cases ((a - b) / d)) as [[Hq ->] | [[Hq ->] | [Hq ->]]].
    + reflexivity.
    + cbn. symmetry. apply Hbig. rewrite Rabs_right; lra.
    + cbn. symmetry. apply Hbig. rewrite Rabs_left; lra.
  - cbn. rewrite Rltb_false by lra. cbn. symmetry.
    apply Hbig, Hquot. rewrite Rabs_right; lra.
  - cbn. rewrite Rltb_false by lra. cbn. symmetry.
    apply Hbig, Hquot. rewrite Rabs_left; lra.
Qed.

Lemma acceleration_entries (u v : list R) (d : R) :
  0 < d <= 1 ->
  map fsquare (map (fun a => fdiv a (Fin d)) (zip_with fsub (finite u) (finite v)))
    = map overflow (map square (vdivs (vsub u v) d)).
Proof.
  intro Hd. revert v. induction u as [|a u IH]; intros [|b v]; try reflexivity.
  unfold finite, vsub, vdivs in *. cbn [map zip_with].
  rewrite IH. f_equal. apply acceleration_entry. exact Hd.
Qed.

Lemma broadcast_same_length (f : fval -> fval -> fval) (u v : list fval) :
  List.length u = List.length v -> broadcast2 f u v = Returns (zip_with f u v).
Proof. intro H. unfold broadcast2. rewrite H, Nat.eqb_refl. reflexivity. Qed.

(** On finite velocities of one shape and any magnitude, and with
    [0 < dt + EPS <= 1], the float term returns the value of the
    real-valued term of module [K] or [W]. *)
Lemma K_joint_acceleration_finite (joint_vel last_joint_vel : list R) (dt : R) :
  List.length joint_vel = List.length last_joint_vel ->
  0 < dt + EPS <= 1 ->
  NonFinite.K.reward_joint_acceleration (finite joint_vel) (finite last_joint_vel) dt
    = Returns (Fin (real_K_reward_joint_acceleration joint_vel last_joint_vel dt)).
Proof.
  intros Hlen Hd. pose proof fmax_large as Hm.
  unfold NonFinite.K.reward_joint_acceleration.
  rewrite broadcast_same_length by (unfold finite; rewrite !length_map; exact Hlen).
  cbn [bind]. rewrite acceleration_entries by exact Hd.
  rewrite fsum_overflow_nonneg by apply squares_nonneg.
  rewrite fclip_fdiv_overflow;
    [reflexivity | apply sum_squares_nonneg | lra | lra | lra].
Qed.

Lemma W_joint_acceleration_finite (joint_vel last_joint_vel : list R) (dt : R) :
  List.length joint_vel = List.length last_joint_vel ->
  0 < dt + EPS <= 1 ->
  NonFinite.W.reward_joint_acceleration (finite joint_vel) (finite last_joint_vel) dt
    = Returns (Fin (real_W_reward_joint_acceleration joint_vel last_joint_vel dt)).
Proof.
  intros Hlen Hd. pose proof fmax_large as Hm.
  unfold NonFinite.W.reward_joint_acceleration.
  rewrite broadcast_same_length by (unfold finite; rewrite !length_map; exact Hlen).
  cbn [bind]. rewrite acceleration_entries by exact Hd.
  rewrite fsum_overflow_nonneg by apply squares_nonneg.
  rewrite fclip_overflow;
    [reflexivity | apply sum_squares_nonneg | lra | lra].
Qed.


Lemma command_forward_far : snd (math.normalize (firstn 3 [1; 0; 0])) = 1.
Proof.
  change (command_norm [1; 0; 0] = 1). rewrite command_norm_euclid.
  - replace (1 * 1 + 0 * 0 + 0 * 0) with 1 by lra. apply sqrt_1.
  - left. rewrite Rabs_R1. lra.
Qed.

End SpecialValues.

(** ** The tracking terms over floats *)

Section FloatTracking.
Local Abbreviation real_K_lin_vel_error := K.lin_vel_error.
Local Abbreviation real_K_ang_vel_error := K.ang_vel_error.
Local Abbreviation real_K_orientation_error := K.orientation_error.
Import NonFinite.

Lemma exp_nat_lower (n : nat) : 2 ^ n <= exp (INR n).
Proof.
  induction n as [|n IH].
  - simpl. rewrite exp_0. lra.
  - rewrite S_INR, exp_plus. cbn [pow].
    pose proof (exp_ineq1_le 1) as H1.
    assert (H0 : 0 < 2 ^ n) by (apply pow_lt; lra).
    nra.
Qed.

(** The exponential of -150 and below is under the float range. *)
Lemma exp_le_tiny (r : R) : r <= -150 -> exp r <= tiny.
Proof.
  intro H.
  assert (Hm : exp r <= exp (- INR 126)).
  { left. apply exp_increasing.
    replace (INR 126) with 126 by (simpl; lra). lra. }
  rewrite exp_Ropp in Hm. unfold tiny.
  pose proof (exp_nat_lower 126) as Hl.
  assert (H0 : 0 < 2 ^ 126) by (apply pow_lt; lra).
  apply Rle_trans with (/ exp (INR 126)); [exact Hm |].
  apply Rinv_le_contravar; assumption.
Qed.

Lemma tiny_small : 0 < tiny < 1.
Proof.
  unfold tiny. assert (H0 : 1 < 2 ^ 126).
  { apply Rlt_le_trans with (2 ^ 1); [simpl; lra |]. apply Rle_pow; [lra | lia]. }
  split.
  - apply Rinv_0_lt_compat. lra.
  - rewrite <- Rinv_1. apply Rinv_lt_contravar; lra.
Qed.

Lemma flushed_exp_zero : flushed_exp 0 = 1.
Proof.
  unfold flushed_exp. rewrite exp_0. pose proof tiny_small.
  rewrite Rleb_false by lra. reflexivity.
Qed.

Lemma flushed_exp_underflow (r : R) : r <= -150 -> flushed_exp r = 0.
Proof.
  intro H. unfold flushed_exp. rewrite Rleb_true by (apply exp_le_tiny; exact H).
  reflexivity.
Qed.

Lemma flushed_exp_range (r : R) : r <= 0 -> 0 <= flushed_exp r <= 1.
Proof.
  intro H. unfold flushed_exp. pose proof (exp_pos r) as Hp.
  assert (He : exp r <= 1).
  { rewrite <- exp_0. destruct H as [H | ->]; [left; apply exp_increasing; exact H | lra]. }
  destruct (Rleb (exp r) tiny); lra.
Qed.

Lemma flushed_exp_mono (r r' : R) : r <= r' -> flushed_exp r <= flushed_exp r'.
Proof.
  intro H. unfold flushed_exp.
  assert (He : exp r <= exp r').
  { destruct H as [H | ->]; [left; apply exp_increasing; exact H | lra]. }
  pose proof (exp_pos r) as Hp. pose proof (exp_pos r') as Hp'.
  pose proof tiny_small as Ht.
  unfold Rleb. destruct (Rle_dec (exp r) tiny); destruct (Rle_dec (exp r') tiny); lra.
Qed.

(** The float exponential of a number that is not positive. *)
Lemma fexp_nonpos (r : R) : r <= 0 -> fexp (Fin r) = Fin (flushed_exp r).
Proof.
  intro H. pose proof fmax_large as Hm. unfold fexp, flushed_exp.
  pose proof (exp_pos r) as Hp.
  assert (He : exp r <= 1).
  { rewrite <- exp_0. destruct H as [H | ->]; [left; apply exp_increasing; exact H | lra]. }
  destruct (Rleb (exp r) tiny); [reflexivity |].
  apply overflow_in_range. lra.
Qed.

(** The value before the clip, for a finite error that is not
    negative and a positive guarded denominator. *)
Lemma decay_finite (e sigma : R) :
  0 <= e -> 0 < sigma + EPS ->
  decay (Fin e) sigma = Fin (flushed_exp (- e / (sigma + EPS))).
Proof.
  intros He Hd. pose proof fmax_large as Hm.
  assert (Hq : - e / (sigma + EPS) <= 0).
  { unfold Rdiv. assert (0 < / (sigma + EPS)) by (apply Rinv_0_lt_compat; exact Hd). nra. }
  unfold decay. cbn [fneg]. unfold fdiv.
  destruct (Req_dec_T (sigma + EPS) 0) as [H0 | _]; [lra |].
  destruct (overflow_cases (- e / (sigma + EPS))) as [[Hr ->] | [[Hr _] | [Hr ->]]].
  - apply fexp_nonpos. exact Hq.
  - lra.
  - cbn [fexp]. rewrite flushed_exp_underflow by lra. reflexivity.
Qed.

Lemma decay_squared_kind (err : fval) (sigma : R) :
  squared_kind err -> 0 < sigma + EPS -> within_or_nan 0 1 (decay err sigma).
Proof.
  intros Hk Hd. destruct err as [e | | |]; cbn [squared_kind] in Hk.
  - rewrite decay_finite by assumption. cbn [within_or_nan].
    apply flushed_exp_range.
    unfold Rdiv. assert (0 < / (sigma + EPS)) by (apply Rinv_0_lt_compat; exact Hd). nra.
  - unfold decay. cbn [fneg fdiv]. rewrite Rltb_false by lra. cbn. lra.
  - contradiction.
  - cbn. exact I.
Qed.

(** Whatever the error and the denominator, the value before the clip
    is a number that is not negative, plus infinity, or not-a-number. *)
Lemma fexp_squared_kind (x : fval) : squared_kind (fexp x).
Proof.
  pose proof fmax_large as Hm.
  destruct x as [r | | |]; cbn [fexp squared_kind]; try lra; try exact I.
  pose proof (exp_pos r) as Hp.
  destruct (Rleb (exp r) tiny); cbn [squared_kind]; [lra |].
  destruct (overflow_cases (exp r)) as [[_ ->] | [[_ ->] | [Hr _]]];
    cbn [squared_kind]; try lra; exact I.
Qed.

Lemma overflow_squared_kind (r : R) : 0 <= r -> squared_kind (overflow r).
Proof.
  intro H. pose proof fmax_large as Hm.
  destruct (overflow_cases r) as [[_ ->] | [[_ ->] | [Hr _]]];
    cbn [squared_kind]; try lra; exact I.
Qed.

Lemma fsquare_squared_kind (x : fval) : squared_kind (fsquare x).
Proof.
  destruct x as [r | | |]; cbn; try exact I.
  apply overflow_squared_kind. apply (square_nonneg r).
Qed.

Lemma fadd_squared_kind (x y : fval) :
  squared_kind x -> squared_kind y -> squared_kind (fadd x y).
Proof.
  intros Hx Hy. destruct x as [a | | |]; destruct y as [b | | |];
    cbn [squared_kind fadd] in *; try exact I; try contradiction.
  apply overflow_squared_kind. lra.
Qed.

Lemma fsum_squared_kind (l : list fval) : squared_kind (fsum (map fsquare l)).
Proof.
  induction l as [|a l IH].
  - cbn. lra.
  - cbn [map fsum fold_right]. apply fadd_squared_kind;
      [apply fsquare_squared_kind | exact IH].
Qed.

(** The clips leave a value of [0, 1], and not-a-number, as they are. *)
Lemma fclip_within (x : fval) (lo hi : R) :
  lo <= 0 -> 1 <= hi -> within_or_nan 0 1 x -> fclip x (Fin lo) (Fin hi) = x.
Proof.
  intros Hlo Hhi H. destruct x as [r | | |]; cbn [within_or_nan] in H;
    try contradiction; [| reflexivity].
  rewrite fclip_finite, (clip_inside r lo hi) by lra. reflexivity.
Qed.

(** The unit-interval clip of a value that is not negative is the
    minimum of 1 and its signed-wide clip; a not-a-number stays one. *)
Lemma fclip_unit_of_wide (x : fval) :
  squared_kind x ->
  fclip x (Fin 0) (Fin 1) = fminimum (fclip x (Fin (-1000)) (Fin 1000)) (Fin 1) /\
  squared_kind (fclip x (Fin 0) (Fin 1)) /\
  squared_kind (fclip x (Fin (-1000)) (Fin 1000)).
Proof.
  intro H. destruct x as [r | | |]; cbn [squared_kind] in H; try contradiction.
  - rewrite !fclip_finite. cbn [fminimum squared_kind]. split; [| split].
    + f_equal. unfold clip.
      rewrite (Rmax_left r 0), (Rmax_left r (-1000)) by lra.
      unfold Rmin. repeat destruct (Rle_dec _ _); lra.
    + apply (proj1 (clip_unit r)).
    + apply Rle_trans with (clip 0 (-1000) 1000);
        [rewrite clip_inside; lra | apply clip_mono; exact H].
  - cbn. unfold Rmin. destruct (Rle_dec 1000 1); [lra |].
    repeat split; lra.
  - cbn. repeat split; exact I.
Qed.

Lemma fmul_fin (a b : R) : fmul (Fin a) (Fin b) = overflow (a * b).
Proof. reflexivity. Qed.

Lemma fadd_fin (a b : R) : fadd (Fin a) (Fin b) = overflow (a + b).
Proof. reflexivity. Qed.

Lemma fsub_fin (a b : R) : fsub (Fin a) (Fin b) = overflow (a - b).
Proof. reflexivity. Qed.

Lemma fsquare_fin (a : R) : fsquare (Fin a) = overflow (a * a).
Proof. reflexivity. Qed.

(** Evaluates float vector arithmetic on numbers that stay in range. *)
Ltac feval :=
  unfold fdot3, fcross3, fscale3, fadd3, fsub3;
  cbn [fw fx fy fz f0 f1 f2];
  repeat first
    [ rewrite fmul_fin | rewrite fadd_fin | rewrite fsub_fin | rewrite fsquare_fin
    | rewrite overflow_in_range by (lra || nra) ].


(** For an upright base the body frame is the world frame, over floats
    too. *)
Lemma frotate_upright (v : vec3) :
  - fmax <= c0 v <= fmax -> - fmax <= c1 v <= fmax -> - fmax <= c2 v <= fmax ->
  frotate (finite3 v) (fquat_inv (finiteq (Q4 1 0 0 0))) = finite3 v.
Proof.
  intros H0 H1 H2. pose proof fmax_large as Hm. destruct v as [a b c].
  cbn [c0 c1 c2] in *. unfold frotate, fquat_inv, finite3, finiteq.
  cbn [qw qx qy qz c0 c1 c2]. cbv zeta. feval.
  f_equal; f_equal; lra.
Qed.

(** The float linear-velocity error of an upright base at rest under a
    moderate command. *)
Lemma float_lin_vel_error_at_rest (cx cy cw : R) :
  -100 <= cx <= 100 -> -100 <= cy <= 100 ->
  NonFinite.K.lin_vel_error [Fin cx; Fin cy; Fin cw]
      (finite_pose upright) (finite_motion at_rest)
    = Fin (cx * cx + cy * cy).
Proof.
  intros Hx Hy. pose proof fmax_large as Hm.
  unfold NonFinite.K.lin_vel_error, finite_pose, finite_motion, upright, at_rest,
    fbase3, fbaseq.
  cbn [vel rot map fvel frot nth]. cbv zeta.
  rewrite frotate_upright by (unfold vzero; cbn [c0 c1 c2]; lra).
  unfold vzero, finite3. cbn [c0 c1 c2 f0 f1 firstn zip_with map fsum fold_right].
  feval. f_equal. lra.
Qed.

(** The error of the files' real-valued reading at the same state. *)
Lemma float_error_is_exact_at_rest (cx cy cw : R) :
  -100 <= cx <= 100 -> -100 <= cy <= 100 ->
  NonFinite.K.lin_vel_error [Fin cx; Fin cy; Fin cw]
      (finite_pose upright) (finite_motion at_rest)
    = Fin (real_K_lin_vel_error [cx; cy; cw] upright at_rest).
Proof.
  intros Hx Hy. rewrite float_lin_vel_error_at_rest by assumption.
  rewrite lin_vel_error_at_rest. reflexivity.
Qed.

Lemma float_lin_vel_error_kind c x xd : squared_kind (NonFinite.K.lin_vel_error c x xd).
Proof. apply fsum_squared_kind. Qed.

Lemma float_ang_vel_error_kind c x xd : squared_kind (NonFinite.K.ang_vel_error c x xd).
Proof. apply fsquare_squared_kind. Qed.

Lemma float_orientation_error_kind d x : squared_kind (NonFinite.K.orientation_error d x).
Proof. apply fsum_squared_kind. Qed.






(** *** The clipped value as a function of the error *)

(** Three facts about the clipped exponential that do not depend on
    where exactly it underflows: it is 1 at error zero, it does not grow
    with the error, and it is 0 once the error is 150 denominators or
    more, and for an error that overflowed. *)
Lemma tracking_value_peak (sigma lo hi : R) :
  0 < sigma + EPS -> lo <= 0 -> 1 <= hi ->
  fclip (decay (Fin 0) sigma) (Fin lo) (Fin hi) = Fin 1.
Proof.
  intros Hd Hlo Hhi. rewrite decay_finite by (lra || exact Hd).
  replace (- 0 / (sigma + EPS)) with 0 by (unfold Rdiv; ring).
  rewrite flushed_exp_zero, fclip_finite, clip_inside by lra. reflexivity.
Qed.

Lemma tracking_value_floor (e sigma lo hi : R) :
  0 < sigma + EPS -> lo <= 0 -> 1 <= hi -> 150 * (sigma + EPS) <= e ->
  fclip (decay (Fin e) sigma) (Fin lo) (Fin hi) = Fin 0.
Proof.
  intros Hd Hlo Hhi He. rewrite decay_finite by (lra || exact Hd).
  rewrite flushed_exp_underflow.
  - rewrite fclip_finite, clip_inside by lra. reflexivity.
  - assert (Hi : 0 < / (sigma + EPS)) by (apply Rinv_0_lt_compat; exact Hd).
    assert (Hq : 150 <= e / (sigma + EPS)).
    { apply Rmult_le_reg_r with (sigma + EPS); [exact Hd |].
      unfold Rdiv. rewrite Rmult_assoc, Rinv_l by lra. lra. }
    unfold Rdiv in *. lra.
Qed.

Lemma tracking_value_overflowed (sigma lo hi : R) :
  0 < sigma + EPS -> lo <= 0 -> 1 <= hi ->
  fclip (decay PInf sigma) (Fin lo) (Fin hi) = Fin 0.
Proof.
  intros Hd Hlo Hhi. unfold decay. cbn [fneg fdiv]. rewrite Rltb_false by lra.
  cbn [fexp]. rewrite fclip_finite, clip_inside by lra. reflexivity.
Qed.

Lemma tracking_value_mono (e e' sigma lo hi : R) :
  0 < sigma + EPS -> lo <= 0 -> 1 <= hi -> 0 <= e <= e' ->
  exists r r',
    fclip (decay (Fin e) sigma) (Fin lo) (Fin hi) = Fin r /\
    fclip (decay (Fin e') sigma) (Fin lo) (Fin hi) = Fin r' /\
    0 <= r' <= r /\ r <= 1.
Proof.
  intros Hd Hlo Hhi He.
  assert (Hi : 0 < / (sigma + EPS)) by (apply Rinv_0_lt_compat; exact Hd).
  assert (Hq : - e' / (sigma + EPS) <= - e / (sigma + EPS)) by (unfold Rdiv; nra).
  assert (H0 : - e / (sigma + EPS) <= 0) by (unfold Rdiv; nra).
  pose proof (flushed_exp_mono _ _ Hq) as Hm.
  pose proof (flushed_exp_range _ H0) as Hr.
  assert (H0' : - e' / (sigma + EPS) <= 0) by lra.
  pose proof (flushed_exp_range _ H0') as Hr'.
  exists (flushed_exp (- e / (sigma + EPS))), (flushed_exp (- e' / (sigma + EPS))).
  rewrite !decay_finite by (lra || exact Hd).
  rewrite !fclip_finite, !clip_inside by lra.
  repeat split; lra.
Qed.

(** With a positive denominator both clips leave the exponential as it
    is: a number of [0, 1], or not-a-number. *)
Lemma tracking_clips_agree (err : fval) (sigma : R) :
  squared_kind err -> 0 < sigma + EPS ->
  fclip (decay err sigma) (Fin 0) (Fin 1)
    = fclip (decay err sigma) (Fin (-1000)) (Fin 1000) /\
  within_or_nan 0 1 (fclip (decay err sigma) (Fin 0) (Fin 1)).
Proof.
  intros Hk Hd. pose proof (decay_squared_kind err sigma Hk Hd) as Hw.
  rewrite !fclip_within by (lra || exact Hw). split; [reflexivity | exact Hw].
Qed.

(** Whatever the denominator, the clipped value is a number of the
    clip interval that is not negative, or not-a-number. *)
Lemma fclip_squared_bounds (x : fval) :
  squared_kind x ->
  within_or_nan 0 1 (fclip x (Fin 0) (Fin 1)) /\
  within_or_nan 0 1000 (fclip x (Fin (-1000)) (Fin 1000)).
Proof.
  intro H. destruct x as [r | | |]; cbn [squared_kind] in H; try contradiction.
  - rewrite !fclip_finite. cbn [within_or_nan]. split.
    + apply clip_unit.
    + pose proof (clip_wide r) as Hw. unfold in_wide in Hw. split; [| lra].
      apply Rle_trans with (clip 0 (-1000) 1000);
        [rewrite clip_inside; lra | apply clip_mono; exact H].
  - cbn. unfold Rmin. destruct (Rle_dec 1000 1); [lra |]. split; lra.
  - cbn. split; exact I.
Qed.


(** *** The float errors on moderate inputs *)

Lemma fmax_huge : 10 ^ 12 <= fmax.
Proof.
  unfold fmax.
  assert (H1 : 2 ^ 41 <= 2 ^ 127) by (apply Rle_pow; [lra | lia]).
  assert (H2 : 10 ^ 12 <= 2 ^ 41) by (simpl; lra).
  assert (H3 : 0 < / 2 ^ 23 <= 1).
  { split.
    - apply Rinv_0_lt_compat. apply pow_lt. lra.
    - rewrite <- Rinv_1. apply Rinv_le_contravar; [lra |].
      apply pow_R1_Rle. lra. }
  assert (H4 : 0 < 2 ^ 127) by (apply pow_lt; lra).
  nra.
Qed.

(** Magnitudes of sums and products, from the magnitudes of the
    operands. *)
Lemma mag_mul (a b A B : R) : Rabs a <= A -> Rabs b <= B -> Rabs (a * b) <= A * B.
Proof.
  intros Ha Hb. rewrite Rabs_mult.
  pose proof (Rabs_pos a). pose proof (Rabs_pos b). nra.
Qed.

Lemma mag_add (a b A B : R) : Rabs a <= A -> Rabs b <= B -> Rabs (a + b) <= A + B.
Proof. intros Ha Hb. pose proof (Rabs_triang a b). lra. Qed.

Lemma mag_sub (a b A B : R) : Rabs a <= A -> Rabs b <= B -> Rabs (a - b) <= A + B.
Proof.
  intros Ha Hb. unfold Rminus. pose proof (Rabs_triang a (- b)).
  rewrite Rabs_Ropp in *. lra.
Qed.

Lemma mag_opp (a A : R) : Rabs a <= A -> Rabs (- a) <= A.
Proof. intro H. rewrite Rabs_Ropp. exact H. Qed.

Lemma mag_range (a A : R) : Rabs a <= A -> A <= fmax -> - fmax <= a <= fmax.
Proof. intros Ha HA. unfold Rabs in Ha. destruct (Rcase_abs a); lra. Qed.

Lemma mag_0 : Rabs 0 <= 0.
Proof. rewrite Rabs_R0. lra. Qed.

Lemma mag_1 : Rabs 1 <= 1.
Proof. rewrite Rabs_R1. lra. Qed.

Lemma mag_2 : Rabs 2 <= 2.
Proof. rewrite Rabs_pos_eq; lra. Qed.

Lemma mag_m1 : Rabs (-1) <= 1.
Proof. unfold Rabs. destruct (Rcase_abs (-1)); lra. Qed.

(** A bound on the magnitude of an arithmetic expression, built from
    the bounds on its variables that the context holds. *)
Ltac mag e :=
  lazymatch e with
  | ?a * ?b => let pa := mag a in let pb := mag b in constr:(mag_mul _ _ _ _ pa pb)
  | ?a + ?b => let pa := mag a in let pb := mag b in constr:(mag_add _ _ _ _ pa pb)
  | ?a - ?b => let pa := mag a in let pb := mag b in constr:(mag_sub _ _ _ _ pa pb)
  | -1 => constr:(mag_m1)
  | - ?a => let pa := mag a in constr:(mag_opp _ _ pa)
  | 0 => constr:(mag_0)
  | 1 => constr:(mag_1)
  | 2 => constr:(mag_2)
  | _ => lazymatch goal with H : Rabs e <= _ |- _ => constr:(H) end
  end.

(** Evaluates float arithmetic whose every intermediate result is
    within the range by such a bound. *)
Ltac settle :=
  repeat first
    [ rewrite fmul_fin | rewrite fadd_fin | rewrite fsub_fin | rewrite fsquare_fin
    | match goal with
      | |- context [overflow ?e] =>
          let p := mag e in
          rewrite (overflow_in_range e) by (apply (mag_range _ _ p); lra)
      end ].

Ltac expose :=
  unfold frotate, fquat_inv, finite3, finiteq, fdot3, fcross3, fscale3, fadd3, fsub3;
  cbn [fw fx fy fz f0 f1 f2 c0 c1 c2 qw qx qy qz
       finite firstn map zip_with fsum fold_right nth]; cbv zeta.

Ltac real_side :=
  unfold math.rotate, math.quat_inv, add3, sub3, scale3, cross3, dot3, xy, to_list3,
    vsub, sum, square;
  cbn [c0 c1 c2 qw qx qy qz firstn map zip_with fold_right nth].

Lemma fbase3_finite (l : list vec3) : fbase3 (map finite3 l) = finite3 (base3 l).
Proof. destruct l; reflexivity. Qed.

Lemma fbaseq_finite (l : list quat) : fbaseq (map finiteq l) = finiteq (baseq l).
Proof. destruct l; reflexivity. Qed.

(** On moderate inputs the float rotation into the body frame is the
    exact one. *)
Lemma frotate_exact (v : vec3) (q : quat) :
  moderate3 v -> moderateq q ->
  frotate (finite3 v) (fquat_inv (finiteq q))
    = finite3 (math.rotate v (math.quat_inv q)).
Proof.
  destruct v as [a b c]. destruct q as [w x y z].
  intros [Ha [Hb Hc]] [Hw [Hx [Hy Hz]]]. cbn [c0 c1 c2 qw qx qy qz] in *.
  pose proof fmax_huge as Hm. simpl in Hm.
  expose. settle. real_side.
  f_equal; f_equal; ring.
Qed.

(** On moderate inputs the float tracking errors are the exact ones. *)
Lemma float_lin_vel_error_exact (commands : list R) (x : Transform) (xd : Motion) :
  moderate commands -> moderate3 (base3 (vel xd)) -> moderateq (baseq (rot x)) ->
  NonFinite.K.lin_vel_error (finite commands) (finite_pose x) (finite_motion xd)
    = Fin (real_K_lin_vel_error commands x xd).
Proof.
  intros Hc Hv Hq. pose proof fmax_huge as Hm. simpl in Hm.
  unfold NonFinite.K.lin_vel_error, real_K_lin_vel_error, K.lin_vel_error,
    finite_pose, finite_motion.
  cbn [fvel frot vel rot]. rewrite fbase3_finite, fbaseq_finite.
  destruct (base3 (vel xd)) as [a b c]. destruct (baseq (rot x)) as [w i j k].
  destruct Hv as [Ha [Hb Hc']]. destruct Hq as [Hw [Hi [Hj Hk]]].
  cbn [c0 c1 c2 qw qx qy qz] in *.
  destruct commands as [|cx [|cy rest]].
  - reflexivity.
  - inversion Hc as [|? ? Hcx _]; subst. expose. settle. real_side. f_equal. ring.
  - inversion Hc as [|? ? Hcx Hc2]; subst. inversion Hc2 as [|? ? Hcy _]; subst.
    expose. settle. real_side. f_equal. ring.
Qed.

Lemma float_ang_vel_error_exact (commands : list R) (x : Transform) (xd : Motion) :
  moderate commands -> moderate3 (base3 (ang xd)) -> moderateq (baseq (rot x)) ->
  NonFinite.K.ang_vel_error (finite commands) (finite_pose x) (finite_motion xd)
    = Fin (real_K_ang_vel_error commands x xd).
Proof.
  intros Hc Hv Hq. pose proof fmax_huge as Hm. simpl in Hm.
  unfold NonFinite.K.ang_vel_error, real_K_ang_vel_error, K.ang_vel_error,
    finite_pose, finite_motion.
  cbn [fang frot ang rot]. rewrite fbase3_finite, fbaseq_finite.
  destruct (base3 (ang xd)) as [a b c]. destruct (baseq (rot x)) as [w i j k].
  destruct Hv as [Ha [Hb Hc']]. destruct Hq as [Hw [Hi [Hj Hk]]].
  cbn [c0 c1 c2 qw qx qy qz] in *.
  assert (Hn : nth 2 (finite commands) (Fin 0) = Fin (nth 2 commands 0))
    by (unfold finite; apply (map_nth Fin)).
  rewrite Hn.
  assert (Hy : Rabs (nth 2 commands 0) <= 1000).
  { destruct commands as [|? [|? [|cw rest]]]; cbn [nth];
      try (rewrite Rabs_R0; lra).
    inversion Hc as [|? ? _ H1]; subst. inversion H1 as [|? ? _ H2]; subst.
    inversion H2 as [|? ? H3 _]; subst. exact H3. }
  generalize dependent (nth 2 commands 0). intros cw _ Hy.
  expose. settle. real_side. f_equal. ring.
Qed.

Lemma float_orientation_error_exact (d : vec3) (x : Transform) :
  moderate3 d -> moderateq (baseq (rot x)) ->
  NonFinite.K.orientation_error (finite3 d) (finite_pose x)
    = Fin (real_K_orientation_error d x).
Proof.
  intros Hv Hq. pose proof fmax_huge as Hm. simpl in Hm.
  unfold NonFinite.K.orientation_error, real_K_orientation_error, K.orientation_error,
    finite_pose.
  cbn [frot rot]. rewrite fbaseq_finite.
  destruct d as [a b c]. destruct (baseq (rot x)) as [w i j k].
  destruct Hv as [Ha [Hb Hc']]. destruct Hq as [Hw [Hi [Hj Hk]]].
  cbn [c0 c1 c2 qw qx qy qz] in *.
  expose. settle. real_side. f_equal. ring.
Qed.

End FloatTracking.
(** ** The stand-still term over floats *)

Section FloatStandStill.
Local Abbreviation real_K_reward_stand_still := K.reward_stand_still.
Local Abbreviation real_W_reward_stand_still := W.reward_stand_still.
Import NonFinite.

Lemma fabs_fsub_finite (a b : R) :
  fabs (fsub (Fin a) (Fin b)) = overflow (Rabs (a - b)).
Proof.
  pose proof fmax_large as Hm.
  unfold fsub. cbn [fneg fadd]. fold (a - b).
  destruct (overflow_cases (a - b)) as [[Hr ->] | [[Hr ->] | [Hr ->]]]; cbn [fabs].
  - symmetry. apply overflow_in_range.
    pose proof (Rabs_pos (a - b)). split; [lra |].
    unfold Rabs. destruct (Rcase_abs (a - b)); lra.
  - symmetry. apply overflow_above. rewrite Rabs_right; lra.
  - symmetry. apply overflow_above. rewrite Rabs_left; lra.
Qed.

Lemma deviations_finite (a b : list R) :
  map fabs (zip_with fsub (finite a) (finite b)) = map overflow (map Rabs (vsub a b)).
Proof.
  revert b. induction a as [|x a IH]; intros [|y b]; try reflexivity.
  unfold finite, vsub in *. cbn [map zip_with]. rewrite IH. f_equal.
  apply fabs_fsub_finite.
Qed.

Lemma abs_nonneg (v : list R) : Forall (fun a => 0 <= a) (map Rabs v).
Proof.
  apply Forall_forall. intros a Ha. apply in_map_iff in Ha.
  destruct Ha as [b [<- _]]. apply Rabs_pos.
Qed.

Lemma fsum_deviations (a b : list R) :
  List.length a = List.length b ->
  broadcast2 fsub (finite a) (finite b)
    = Returns (zip_with fsub (finite a) (finite b)) /\
  fsum (map fabs (zip_with fsub (finite a) (finite b))) = overflow (pose_deviation a b).
Proof.
  intro Hlen. split.
  - apply broadcast_same_length. unfold finite. rewrite !length_map. exact Hlen.
  - rewrite deviations_finite. apply fsum_overflow_nonneg, abs_nonneg.
Qed.

(** With the gate closed the selection returns zero, whatever the sum
    of deviations is, an overflowed one included. *)
Lemma stand_still_closed_floats
    (commands joint_angles default_pose : list R) (command_threshold : R) :
  List.length joint_angles = List.length default_pose ->
  command_threshold <= command_norm commands ->
  NonFinite.K.reward_stand_still commands (finite joint_angles) (finite default_pose)
      command_threshold = Returns (Fin 0) /\
  NonFinite.W.reward_stand_still commands (finite joint_angles) (finite default_pose)
      command_threshold = Returns (Fin 0).
Proof.
  intros Hlen Hc. pose proof fmax_large as Hm.
  pose proof twelve_pi_range as Hpi.
  destruct (fsum_deviations joint_angles default_pose Hlen) as [Hb Hs].
  unfold NonFinite.K.reward_stand_still, NonFinite.W.reward_stand_still.
  rewrite Hb. cbn [bind].
  change (snd (math.normalize (firstn 3 commands))) with (command_norm commands).
  rewrite Rltb_false by exact Hc. cbn [fgate].
  unfold fdiv. destruct (Req_dec_T (12 * PI) 0) as [H0 | _]; [lra |].
  replace (0 / (12 * PI)) with 0 by (unfold Rdiv; ring).
  rewrite (overflow_in_range 0) by lra.
  rewrite !fclip_finite, !clip_inside by lra. split; reflexivity.
Qed.

(** With the gate open the clip brings an overflowed sum back to the
    bound, which is the value of the real-valued term. *)
Lemma stand_still_open_floats
    (commands joint_angles default_pose : list R) (command_threshold : R) :
  List.length joint_angles = List.length default_pose ->
  command_norm commands < command_threshold ->
  NonFinite.K.reward_stand_still commands (finite joint_angles) (finite default_pose)
      command_threshold
    = Returns (Fin (real_K_reward_stand_still commands joint_angles default_pose
                      command_threshold)) /\
  NonFinite.W.reward_stand_still commands (finite joint_angles) (finite default_pose)
      command_threshold
    = Returns (Fin (real_W_reward_stand_still commands joint_angles default_pose
                      command_threshold)).
Proof.
  intros Hlen Hopen. pose proof fmax_large as Hm.
  pose proof twelve_pi_range as Hpi. pose proof PI_RGT_0 as Hp0.
  pose proof (pose_deviation_nonneg joint_angles default_pose) as Hdev.
  destruct (fsum_deviations joint_angles default_pose Hlen) as [Hb Hs].
  destruct (stand_still_open commands joint_angles default_pose _ Hopen) as [HK HW].
  rewrite HK, HW.
  unfold NonFinite.K.reward_stand_still, NonFinite.W.reward_stand_still.
  rewrite Hb. cbn [bind]. rewrite Hs.
  change (snd (math.normalize (firstn 3 commands))) with (command_norm commands).
  rewrite Rltb_true by exact Hopen. cbn [fgate].
  rewrite fclip_fdiv_overflow
    by (try exact Hdev; try lra; pose proof PI2_3_2; unfold PI2 in *; lra).
  rewrite fclip_overflow by (try exact Hdev; lra).
  split; reflexivity.
Qed.

End FloatStandStill.

(** ** Malformed input *)

(** C7, as the spec states it, fails: on a torque array that holds a
    not-a-number, [reward_torques] of either file returns, and what it
    returns is not-a-number; on one that holds an infinity it returns the
    upper clip bound.  No error is raised. *)
Lemma C7_nan_propagates_counterexample :
  NonFinite.K.reward_torques [NonFinite.Fin 1; NonFinite.NaN]
    = NonFinite.Returns NonFinite.NaN /\
  NonFinite.W.reward_torques [NonFinite.Fin 1; NonFinite.NaN]
    = NonFinite.Returns NonFinite.NaN /\
  NonFinite.K.reward_torques [NonFinite.PInf]
    = NonFinite.Returns (NonFinite.Fin 1).
Proof.
  split; [| split].
  - unfold NonFinite.K.reward_torques.
    rewrite fsum_squares_NaN by (right; left; reflexivity). reflexivity.
  - unfold NonFinite.W.reward_torques.
    rewrite fsum_squares_NaN by (right; left; reflexivity). reflexivity.
  - unfold NonFinite.K.reward_torques. cbn.
    rewrite Rltb_false by lra. reflexivity.
Qed.

(** C7, amended: the reward terms do not validate their inputs and no
    validation error exists in either file.  [reward_torques] returns a
    value on every torque array, of any length and with any entries.  If
    an entry is not-a-number so is the returned reward; if no entry is
    not-a-number but one is infinite, the reward is the upper clip bound;
    on finite torques it is the value of the real-valued term. *)
Theorem C7_torques_never_raise (torques : list NonFinite.fval) :
  (exists v, NonFinite.K.reward_torques torques = NonFinite.Returns v) /\
  (exists v, NonFinite.W.reward_torques torques = NonFinite.Returns v) /\
  (In NonFinite.NaN torques ->
     NonFinite.K.reward_torques torques = NonFinite.Returns NonFinite.NaN /\
     NonFinite.W.reward_torques torques = NonFinite.Returns NonFinite.NaN) /\
  (~ In NonFinite.NaN torques ->
   In NonFinite.PInf torques \/ In NonFinite.NInf torques ->
     NonFinite.K.reward_torques torques = NonFinite.Returns (NonFinite.Fin 1) /\
     NonFinite.W.reward_torques torques = NonFinite.Returns (NonFinite.Fin 1000)) /\
  (forall v, torques = NonFinite.finite v ->
     NonFinite.K.reward_torques torques
       = NonFinite.Returns (NonFinite.Fin (K.reward_torques v)) /\
     NonFinite.W.reward_torques torques
       = NonFinite.Returns (NonFinite.Fin (W.reward_torques v))).
Proof.
  split; [eexists; reflexivity |].
  split; [eexists; reflexivity |].
  split; [| split].
  - intro H. unfold NonFinite.K.reward_torques, NonFinite.W.reward_torques.
    rewrite fsum_squares_NaN by exact H. split; reflexivity.
  - intros Hn Hinf.
    unfold NonFinite.K.reward_torques, NonFinite.W.reward_torques.
    destruct (fsum_squares_cases torques Hn) as [[v [Hv _]] | [_ Hs]].
    + exfalso. subst torques.
      destruct Hinf as [H | H]; apply finite_no_special in H;
        destruct H as [r Hr]; discriminate Hr.
    + rewrite Hs. cbn. rewrite Rltb_false by lra. split; reflexivity.
  - intros v ->. split; [apply K_torques_finite | apply W_torques_finite].
Qed.

Lemma C7_torques_never_raise_witness :
  NonFinite.K.reward_torques [NonFinite.Fin 10; NonFinite.NaN]
    = NonFinite.Returns NonFinite.NaN /\
  NonFinite.K.reward_torques [NonFinite.Fin 10; NonFinite.NInf]
    = NonFinite.Returns (NonFinite.Fin 1).
Proof.
  split.
  - apply (proj1 (proj2 (proj2 (C7_torques_never_raise _)))).
    right. left. reflexivity.
  - apply (proj1 (proj2 (proj2 (proj2 (C7_torques_never_raise _))))).
    + intros [H | [H | []]]; discriminate H.
    + right. right. left. reflexivity.
Defined.

(** ** Bounds of the catalog *)






(** ** Tracking terms: peak and decay *)

(** C5, as the spec states it, fails over floats: the exponential
    underflows.  An upright base at rest under a forward command of 7
    has the tracking error 49, under a command of 8 the error 64; with
    [tracking_sigma = 0.25] both exponents are below -150 and
    [reward_tracking_lin_vel] returns exactly 0 for both, so the larger
    error does not have the strictly smaller value. *)
Lemma C5_underflow_counterexample :
  NonFinite.K.lin_vel_error
      [NonFinite.Fin 7; NonFinite.Fin 0; NonFinite.Fin 0]
      (NonFinite.finite_pose upright) (NonFinite.finite_motion at_rest)
    = NonFinite.Fin 49 /\
  NonFinite.K.lin_vel_error
      [NonFinite.Fin 8; NonFinite.Fin 0; NonFinite.Fin 0]
      (NonFinite.finite_pose upright) (NonFinite.finite_motion at_rest)
    = NonFinite.Fin 64 /\
  NonFinite.K.reward_tracking_lin_vel
      [NonFinite.Fin 7; NonFinite.Fin 0; NonFinite.Fin 0]
      (NonFinite.finite_pose upright) (NonFinite.finite_motion at_rest) (1 / 4)
    = NonFinite.Returns (NonFinite.Fin 0) /\
  NonFinite.K.reward_tracking_lin_vel
      [NonFinite.Fin 8; NonFinite.Fin 0; NonFinite.Fin 0]
      (NonFinite.finite_pose upright) (NonFinite.finite_motion at_rest) (1 / 4)
    = NonFinite.Returns (NonFinite.Fin 0).
Proof.
  assert (H7 : NonFinite.K.lin_vel_error
      [NonFinite.Fin 7; NonFinite.Fin 0; NonFinite.Fin 0]
      (NonFinite.finite_pose upright) (NonFinite.finite_motion at_rest)
    = NonFinite.Fin 49).
  { rewrite float_lin_vel_error_at_rest by lra. f_equal. lra. }
  assert (H8 : NonFinite.K.lin_vel_error
      [NonFinite.Fin 8; NonFinite.Fin 0; NonFinite.Fin 0]
      (NonFinite.finite_pose upright) (NonFinite.finite_motion at_rest)
    = NonFinite.Fin 64).
  { rewrite float_lin_vel_error_at_rest by lra. f_equal. lra. }
  split; [exact H7 | split; [exact H8 |]].
  unfold NonFinite.K.reward_tracking_lin_vel. cbv zeta. rewrite H7, H8.
  rewrite !tracking_value_floor by (unfold EPS; lra).
  split; reflexivity.
Qed.

(** What a tracking term over floats does with its error, whatever the
    rounding. *)
Lemma float_tracking_law (sigma : R) (err err' : NonFinite.fval) :
  0 < sigma + EPS ->
  (err = NonFinite.Fin 0 ->
     NonFinite.fclip (NonFinite.decay err sigma) (NonFinite.Fin 0) (NonFinite.Fin 1)
       = NonFinite.Fin 1) /\
  (forall e e',
     err = NonFinite.Fin e -> err' = NonFinite.Fin e' -> 0 <= e <= e' ->
     exists r r',
       NonFinite.fclip (NonFinite.decay err sigma) (NonFinite.Fin 0) (NonFinite.Fin 1)
         = NonFinite.Fin r /\
       NonFinite.fclip (NonFinite.decay err' sigma) (NonFinite.Fin 0) (NonFinite.Fin 1)
         = NonFinite.Fin r' /\
       0 <= r' <= r /\ r <= 1) /\
  (forall e,
     err = NonFinite.Fin e -> 150 * (sigma + EPS) <= e ->
     NonFinite.fclip (NonFinite.decay err sigma) (NonFinite.Fin 0) (NonFinite.Fin 1)
       = NonFinite.Fin 0).
Proof.
  intro Hd. split; [| split].
  - intros ->. apply tracking_value_peak; lra.
  - intros e e' -> -> He. apply tracking_value_mono; lra.
  - intros e -> He. apply tracking_value_floor; lra.
Qed.

(** C5, amended.  For a positive [tracking_sigma] and each tracking
    term of the unit-interval file:
    - in exact arithmetic the value is 1 when the tracking error is zero,
      and of two states the one with the larger error has the strictly
      smaller value;
    - the error is the squared distance between the command (or the
      desired axis) and the base velocity (or the world z axis) turned
      into the body frame;
    - over floats the error of a moderate state is that exact error, the
      value is 1 when the float error is zero, of two states the one with
      the larger float error has a value that is not larger, and the
      value is exactly 0 once the error is 150 times
      [tracking_sigma + EPS] or more. *)
Theorem C5_tracking_peak_and_strict_decay (tracking_sigma : R) :
  0 < tracking_sigma ->
  (* exact arithmetic *)
  (forall c x xd,
     K.lin_vel_error c x xd = 0 ->
     K.reward_tracking_lin_vel c x xd tracking_sigma = 1) /\
  (forall c x xd c' x' xd',
     K.lin_vel_error c x xd < K.lin_vel_error c' x' xd' ->
     K.reward_tracking_lin_vel c' x' xd' tracking_sigma
       < K.reward_tracking_lin_vel c x xd tracking_sigma) /\
  (forall c x xd,
     K.ang_vel_error c x xd = 0 ->
     K.reward_tracking_ang_vel c x xd tracking_sigma = 1) /\
  (forall c x xd c' x' xd',
     K.ang_vel_error c x xd < K.ang_vel_error c' x' xd' ->
     K.reward_tracking_ang_vel c' x' xd' tracking_sigma
       < K.reward_tracking_ang_vel c x xd tracking_sigma) /\
  (forall d x,
     K.orientation_error d x = 0 ->
     K.reward_tracking_orientation d x tracking_sigma = 1) /\
  (forall d x d' x',
     K.orientation_error d x < K.orientation_error d' x' ->
     K.reward_tracking_orientation d' x' tracking_sigma
       < K.reward_tracking_orientation d x tracking_sigma) /\
  (* the errors, from the inputs *)
  (forall cx cy rest p q qs v vs a,
     K.lin_vel_error (cx :: cy :: rest)
         {| pos := p; rot := q :: qs |} {| vel := v :: vs; ang := a |}
       = square (cx - c0 (math.rotate v (math.quat_inv q)))
         + square (cy - c1 (math.rotate v (math.quat_inv q)))) /\
  (forall cx cy cw rest p q qs v w ws,
     K.ang_vel_error (cx :: cy :: cw :: rest)
         {| pos := p; rot := q :: qs |} {| vel := v; ang := w :: ws |}
       = square (cw - c2 (math.rotate w (math.quat_inv q)))) /\
  (forall d p q qs,
     K.orientation_error d {| pos := p; rot := q :: qs |}
       = square (c0 (math.rotate (V3 0 0 1) (math.quat_inv q)) - c0 d)
         + square (c1 (math.rotate (V3 0 0 1) (math.quat_inv q)) - c1 d)
         + square (c2 (math.rotate (V3 0 0 1) (math.quat_inv q)) - c2 d)) /\
  (* floats: the errors of moderate states *)
  (forall c x xd,
     moderate c -> moderate3 (base3 (vel xd)) -> moderateq (baseq (rot x)) ->
     NonFinite.K.lin_vel_error
         (NonFinite.finite c) (NonFinite.finite_pose x) (NonFinite.finite_motion xd)
       = NonFinite.Fin (K.lin_vel_error c x xd)) /\
  (forall c x xd,
     moderate c -> moderate3 (base3 (ang xd)) -> moderateq (baseq (rot x)) ->
     NonFinite.K.ang_vel_error
         (NonFinite.finite c) (NonFinite.finite_pose x) (NonFinite.finite_motion xd)
       = NonFinite.Fin (K.ang_vel_error c x xd)) /\
  (forall d x,
     moderate3 d -> moderateq (baseq (rot x)) ->
     NonFinite.K.orientation_error (NonFinite.finite3 d) (NonFinite.finite_pose x)
       = NonFinite.Fin (K.orientation_error d x)) /\
  (* floats: the peak, the decay and the underflow *)
  (forall c x xd,
     NonFinite.K.lin_vel_error c x xd = NonFinite.Fin 0 ->
     NonFinite.K.reward_tracking_lin_vel c x xd tracking_sigma
       = NonFinite.Returns (NonFinite.Fin 1)) /\
  (forall c x xd c' x' xd' e e',
     NonFinite.K.lin_vel_error c x xd = NonFinite.Fin e ->
     NonFinite.K.lin_vel_error c' x' xd' = NonFinite.Fin e' ->
     e <= e' ->
     exists r r',
       NonFinite.K.reward_tracking_lin_vel c x xd tracking_sigma
         = NonFinite.Returns (NonFinite.Fin r) /\
       NonFinite.K.reward_tracking_lin_vel c' x' xd' tracking_sigma
         = NonFinite.Returns (NonFinite.Fin r') /\
       0 <= r' <= r /\ r <= 1) /\
  (forall c x xd e,
     NonFinite.K.lin_vel_error c x xd = NonFinite.Fin e ->
     150 * (tracking_sigma + EPS) <= e ->
     NonFinite.K.reward_tracking_lin_vel c x xd tracking_sigma
       = NonFinite.Returns (NonFinite.Fin 0)) /\
  (forall c x xd,
     NonFinite.K.ang_vel_error c x xd = NonFinite.Fin 0 ->
     NonFinite.K.reward_tracking_ang_vel c x xd tracking_sigma
       = NonFinite.Returns (NonFinite.Fin 1)) /\
  (forall c x xd c' x' xd' e e',
     NonFinite.K.ang_vel_error c x xd = NonFinite.Fin e ->
     NonFinite.K.ang_vel_error c' x' xd' = NonFinite.Fin e' ->
     e <= e' ->
     exists r r',
       NonFinite.K.reward_tracking_ang_vel c x xd tracking_sigma
         = NonFinite.Returns (NonFinite.Fin r) /\
       NonFinite.K.reward_tracking_ang_vel c' x' xd' tracking_sigma
         = NonFinite.Returns (NonFinite.Fin r') /\
       0 <= r' <= r /\ r <= 1) /\
  (forall c x xd e,
     NonFinite.K.ang_vel_error c x xd = NonFinite.Fin e ->
     150 * (tracking_sigma + EPS) <= e ->
     NonFinite.K.reward_tracking_ang_vel c x xd tracking_sigma
       = NonFinite.Returns (NonFinite.Fin 0)) /\
  (forall d x,
     NonFinite.K.orientation_error d x = NonFinite.Fin 0 ->
     NonFinite.K.reward_tracking_orientation d x tracking_sigma
       = NonFinite.Returns (NonFinite.Fin 1)) /\
  (forall d x d' x' e e',
     NonFinite.K.orientation_error d x = NonFinite.Fin e ->
     NonFinite.K.orientation_error d' x' = NonFinite.Fin e' ->
     e <= e' ->
     exists r r',
       NonFinite.K.reward_tracking_orientation d x tracking_sigma
         = NonFinite.Returns (NonFinite.Fin r) /\
       NonFinite.K.reward_tracking_orientation d' x' tracking_sigma
         = NonFinite.Returns (NonFinite.Fin r') /\
       0 <= r' <= r /\ r <= 1) /\
  (forall d x e,
     NonFinite.K.orientation_error d x = NonFinite.Fin e ->
     150 * (tracking_sigma + EPS) <= e ->
     NonFinite.K.reward_tracking_orientation d x tracking_sigma
       = NonFinite.Returns (NonFinite.Fin 0)).
Proof.
  intro Hs.
  assert (Hd : 0 < tracking_sigma + EPS) by (apply guarded_sigma_pos; lra).
  assert (Hnn : forall err e,
    NonFinite.squared_kind err -> err = NonFinite.Fin e -> 0 <= e).
  { intros err e Hk ->. exact Hk. }
  assert (Hpair : forall err err' e e',
    NonFinite.squared_kind err -> err = NonFinite.Fin e -> err' = NonFinite.Fin e' ->
    e <= e' ->
    exists r r',
      NonFinite.Returns
        (NonFinite.fclip (NonFinite.decay err tracking_sigma)
           (NonFinite.Fin 0) (NonFinite.Fin 1))
        = NonFinite.Returns (NonFinite.Fin r) /\
      NonFinite.Returns
        (NonFinite.fclip (NonFinite.decay err' tracking_sigma)
           (NonFinite.Fin 0) (NonFinite.Fin 1))
        = NonFinite.Returns (NonFinite.Fin r') /\
      0 <= r' <= r /\ r <= 1).
  { intros err err' e e' Hk He He' Hle.
    pose proof (Hnn err e Hk He) as H0.
    destruct (float_tracking_law tracking_sigma err err' Hd) as [_ [Hm _]].
    destruct (Hm e e' He He' (conj H0 Hle)) as [r [r' [Hr [Hr' Hb]]]].
    exists r, r'. rewrite Hr, Hr'. repeat split; try reflexivity; apply Hb. }
  repeat match goal with |- _ /\ _ => split end.
  - intros. rewrite K_tracking_lin_vel_exp by exact Hd.
    rewrite H. apply exp_decay_peak.
  - intros. rewrite !K_tracking_lin_vel_exp by exact Hd.
    apply exp_decay_strict; assumption.
  - intros. rewrite K_tracking_ang_vel_exp by exact Hd.
    rewrite H. apply exp_decay_peak.
  - intros. rewrite !K_tracking_ang_vel_exp by exact Hd.
    apply exp_decay_strict; assumption.
  - intros. rewrite K_tracking_orientation_exp by exact Hd.
    rewrite H. apply exp_decay_peak.
  - intros. rewrite !K_tracking_orientation_exp by exact Hd.
    apply exp_decay_strict; assumption.
  - intros. unfold K.lin_vel_error, base3, baseq, vsub, xy, sum.
    cbn [vel rot nth firstn zip_with map fold_right]. lra.
  - intros. unfold K.ang_vel_error, base3, baseq.
    cbn [ang rot nth]. reflexivity.
  - intros. unfold K.orientation_error, baseq, to_list3, sub3, sum.
    cbn [rot nth map fold_right c0 c1 c2]. lra.
  - intros. apply float_lin_vel_error_exact; assumption.
  - intros. apply float_ang_vel_error_exact; assumption.
  - intros. apply float_orientation_error_exact; assumption.
  - intros c x xd He. unfold NonFinite.K.reward_tracking_lin_vel. cbv zeta.
    rewrite He, tracking_value_peak by lra. reflexivity.
  - intros c x xd c' x' xd' e e' He He' Hle.
    apply (Hpair _ _ e e' (float_lin_vel_error_kind c x xd) He He' Hle).
  - intros c x xd e He Hbig. unfold NonFinite.K.reward_tracking_lin_vel. cbv zeta.
    rewrite He, tracking_value_floor by lra. reflexivity.
  - intros c x xd He. unfold NonFinite.K.reward_tracking_ang_vel. cbv zeta.
    rewrite He, tracking_value_peak by lra. reflexivity.
  - intros c x xd c' x' xd' e e' He He' Hle.
    apply (Hpair _ _ e e' (float_ang_vel_error_kind c x xd) He He' Hle).
  - intros c x xd e He Hbig. unfold NonFinite.K.reward_tracking_ang_vel. cbv zeta.
    rewrite He, tracking_value_floor by lra. reflexivity.
  - intros d x He. unfold NonFinite.K.reward_tracking_orientation. cbv zeta.
    rewrite He, tracking_value_peak by lra. reflexivity.
  - intros d x d' x' e e' He He' Hle.
    apply (Hpair _ _ e e' (float_orientation_error_kind d x) He He' Hle).
  - intros d x e He Hbig. unfold NonFinite.K.reward_tracking_orientation. cbv zeta.
    rewrite He, tracking_value_floor by lra. reflexivity.
Qed.

Lemma C5_tracking_witness :
  K.reward_tracking_lin_vel [0; 0; 0] upright at_rest (1 / 4) = 1 /\
  K.reward_tracking_lin_vel [1; 0; 0] upright at_rest (1 / 4)
    < K.reward_tracking_lin_vel [0; 0; 0] upright at_rest (1 / 4) /\
  NonFinite.K.reward_tracking_lin_vel
      [NonFinite.Fin 0; NonFinite.Fin 0; NonFinite.Fin 0]
      (NonFinite.finite_pose upright) (NonFinite.finite_motion at_rest) (1 / 4)
    = NonFinite.Returns (NonFinite.Fin 1) /\
  NonFinite.K.reward_tracking_lin_vel
      [NonFinite.Fin 7; NonFinite.Fin 0; NonFinite.Fin 0]
      (NonFinite.finite_pose upright) (NonFinite.finite_motion at_rest) (1 / 4)
    = NonFinite.Returns (NonFinite.Fin 0).
Proof.
  assert (Hs : 0 < 1 / 4) by lra.
  pose proof (C5_tracking_peak_and_strict_decay (1 / 4) Hs) as H.
  destruct H as [Hpeak [Hdecay H]].
  do 10 (destruct H as [_ H]).
  destruct H as [Hfpeak [_ [Hfloor _]]].
  split; [| split; [| split]].
  - apply Hpeak. rewrite lin_vel_error_at_rest. lra.
  - apply Hdecay. rewrite !lin_vel_error_at_rest. lra.
  - apply Hfpeak. rewrite float_lin_vel_error_at_rest by lra. f_equal. lra.
  - apply (Hfloor _ _ _ 49).
    + rewrite float_lin_vel_error_at_rest by lra. f_equal. lra.
    + unfold EPS. lra.
Defined.

(** ** The epsilon guard and the agreement of the two files *)

Lemma W_lin_vel_error_eq c x xd : W.lin_vel_error c x xd = K.lin_vel_error c x xd.
Proof. reflexivity. Qed.

Lemma W_ang_vel_error_eq c x xd : W.ang_vel_error c x xd = K.ang_vel_error c x xd.
Proof. reflexivity. Qed.

Lemma W_orientation_error_eq d x : W.orientation_error d x = K.orientation_error d x.
Proof. reflexivity. Qed.

Lemma W_tracking_lin_vel_exp c x xd sigma :
  0 < sigma + EPS ->
  W.reward_tracking_lin_vel c x xd sigma = exp (- W.lin_vel_error c x xd / (sigma + EPS)).
Proof.
  intro H. unfold W.reward_tracking_lin_vel.
  apply clip_exp_decay; [apply K_lin_vel_error_nonneg | exact H | lra | lra].
Qed.

Lemma W_tracking_ang_vel_exp c x xd sigma :
  0 < sigma + EPS ->
  W.reward_tracking_ang_vel c x xd sigma = exp (- W.ang_vel_error c x xd / (sigma + EPS)).
Proof.
  intro H. unfold W.reward_tracking_ang_vel.
  apply clip_exp_decay; [apply K_ang_vel_error_nonneg | exact H | lra | lra].
Qed.

Lemma W_tracking_orientation_exp d x sigma :
  0 < sigma + EPS ->
  W.reward_tracking_orientation d x sigma = exp (- W.orientation_error d x / (sigma + EPS)).
Proof.
  intro H. unfold W.reward_tracking_orientation.
  apply clip_exp_decay; [apply K_orientation_error_nonneg | exact H | lra | lra].
Qed.

Lemma zero_plus_EPS : 0 + EPS = EPS.
Proof. apply Rplus_0_l. Qed.

(** C8: with [dt = 0] or [tracking_sigma = 0] the denominator is [EPS],
    which is not zero, and the terms have their ordinary value.
    [reward_joint_acceleration] with [dt = 0] is the clip of the sum of
    the squares of the velocity differences over [EPS] (over 120000 in the
    unit-interval file); read over floats, on finite velocities of one
    shape it returns that finite number and raises nothing.  The tracking
    terms with [tracking_sigma = 0] are [exp(- error / EPS)]. *)
Theorem C8_zero_dt_and_zero_sigma_guarded :
  0 + EPS <> 0 /\
  (forall jv ljv,
     K.reward_joint_acceleration jv ljv 0
       = clip (sum (map square (vdivs (vsub jv ljv) EPS)) / 120000) 0 1 /\
     W.reward_joint_acceleration jv ljv 0
       = clip (sum (map square (vdivs (vsub jv ljv) EPS))) (-1000) 1000) /\
  (forall jv ljv,
     List.length jv = List.length ljv ->
     NonFinite.K.reward_joint_acceleration (NonFinite.finite jv) (NonFinite.finite ljv) 0
       = NonFinite.Returns (NonFinite.Fin
           (clip (sum (map square (vdivs (vsub jv ljv) EPS)) / 120000) 0 1)) /\
     NonFinite.W.reward_joint_acceleration (NonFinite.finite jv) (NonFinite.finite ljv) 0
       = NonFinite.Returns (NonFinite.Fin
           (clip (sum (map square (vdivs (vsub jv ljv) EPS))) (-1000) 1000))) /\
  (forall c x xd,
     K.reward_tracking_lin_vel c x xd 0 = exp (- K.lin_vel_error c x xd / EPS) /\
     W.reward_tracking_lin_vel c x xd 0 = exp (- W.lin_vel_error c x xd / EPS) /\
     K.reward_tracking_ang_vel c x xd 0 = exp (- K.ang_vel_error c x xd / EPS) /\
     W.reward_tracking_ang_vel c x xd 0 = exp (- W.ang_vel_error c x xd / EPS)) /\
  (forall d x,
     K.reward_tracking_orientation d x 0 = exp (- K.orientation_error d x / EPS) /\
     W.reward_tracking_orientation d x 0 = exp (- W.orientation_error d x / EPS)).
Proof.
  pose proof EPS_pos as He.
  assert (Hz : 0 < 0 + EPS) by lra.
  assert (HK : forall jv ljv,
    K.reward_joint_acceleration jv ljv 0
      = clip (sum (map square (vdivs (vsub jv ljv) EPS)) / 120000) 0 1).
  { intros. unfold K.reward_joint_acceleration. rewrite zero_plus_EPS. reflexivity. }
  assert (HW : forall jv ljv,
    W.reward_joint_acceleration jv ljv 0
      = clip (sum (map square (vdivs (vsub jv ljv) EPS))) (-1000) 1000).
  { intros. unfold W.reward_joint_acceleration. rewrite zero_plus_EPS. reflexivity. }
  split; [lra |].
  split; [intros; split; [apply HK | apply HW] |].
  split.
  { intros jv ljv Hlen. unfold EPS in He. split.
    - rewrite K_joint_acceleration_finite by (try exact Hlen; unfold EPS; lra).
      rewrite HK. reflexivity.
    - rewrite W_joint_acceleration_finite by (try exact Hlen; unfold EPS; lra).
      rewrite HW. reflexivity. }
  split.
  { intros c x xd.
    rewrite K_tracking_lin_vel_exp, W_tracking_lin_vel_exp,
      K_tracking_ang_vel_exp, W_tracking_ang_vel_exp by exact Hz.
    rewrite zero_plus_EPS. repeat split; reflexivity. }
  intros d x.
  rewrite K_tracking_orientation_exp, W_tracking_orientation_exp by exact Hz.
  rewrite zero_plus_EPS. split; reflexivity.
Qed.

Lemma C8_zero_dt_witness :
  NonFinite.K.reward_joint_acceleration
    (NonFinite.finite [1; 2]) (NonFinite.finite [1; 0]) 0
  = NonFinite.Returns (NonFinite.Fin
      (clip (sum (map square (vdivs (vsub [1; 2] [1; 0]) EPS)) / 120000) 0 1)).
Proof.
  apply (proj1 (proj2 (proj2 C8_zero_dt_and_zero_sigma_guarded))).
  reflexivity.
Defined.

(** C9: for every [tracking_sigma] above [-EPS], so for every
    positive one, the three tracking terms return the same value in both
    files on every state and command, in exact arithmetic and over
    floats: the exponential is a number of [0, 1] or not-a-number, and
    neither clip changes it.  Over floats the value can be exactly 0,
    where the exponential underflows.  [reward_termination] is the same
    function in both files, on every input. *)
Theorem C9_tracking_and_termination_agree :
  (forall tracking_sigma,
     - EPS < tracking_sigma ->
     (forall c x xd,
        K.reward_tracking_lin_vel c x xd tracking_sigma
          = W.reward_tracking_lin_vel c x xd tracking_sigma) /\
     (forall c x xd,
        K.reward_tracking_ang_vel c x xd tracking_sigma
          = W.reward_tracking_ang_vel c x xd tracking_sigma) /\
     (forall d x,
        K.reward_tracking_orientation d x tracking_sigma
          = W.reward_tracking_orientation d x tracking_sigma) /\
     (forall c x xd,
        NonFinite.K.reward_tracking_lin_vel c x xd tracking_sigma
          = NonFinite.W.reward_tracking_lin_vel c x xd tracking_sigma /\
        NonFinite.bounded_or_nan 0 1
          (NonFinite.K.reward_tracking_lin_vel c x xd tracking_sigma)) /\
     (forall c x xd,
        NonFinite.K.reward_tracking_ang_vel c x xd tracking_sigma
          = NonFinite.W.reward_tracking_ang_vel c x xd tracking_sigma /\
        NonFinite.bounded_or_nan 0 1
          (NonFinite.K.reward_tracking_ang_vel c x xd tracking_sigma)) /\
     (forall d x,
        NonFinite.K.reward_tracking_orientation d x tracking_sigma
          = NonFinite.W.reward_tracking_orientation d x tracking_sigma /\
        NonFinite.bounded_or_nan 0 1
          (NonFinite.K.reward_tracking_orientation d x tracking_sigma))) /\
  (forall done step step_threshold,
     K.reward_termination done step step_threshold
       = W.reward_termination done step step_threshold).
Proof.
  split; [| reflexivity].
  intros sigma Hs.
  assert (Hd : 0 < sigma + EPS) by lra.
  split; [| split; [| split; [| split; [| split]]]].
  - intros. rewrite K_tracking_lin_vel_exp, W_tracking_lin_vel_exp by exact Hd.
    reflexivity.
  - intros. rewrite K_tracking_ang_vel_exp, W_tracking_ang_vel_exp by exact Hd.
    reflexivity.
  - intros. rewrite K_tracking_orientation_exp, W_tracking_orientation_exp by exact Hd.
    reflexivity.
  - intros c x xd.
    destruct (tracking_clips_agree _ sigma (float_lin_vel_error_kind c x xd) Hd)
      as [Heq Hin].
    unfold NonFinite.K.reward_tracking_lin_vel, NonFinite.W.reward_tracking_lin_vel.
    cbv zeta. split; [f_equal; exact Heq | exact Hin].
  - intros c x xd.
    destruct (tracking_clips_agree _ sigma (float_ang_vel_error_kind c x xd) Hd)
      as [Heq Hin].
    unfold NonFinite.K.reward_tracking_ang_vel, NonFinite.W.reward_tracking_ang_vel.
    cbv zeta. split; [f_equal; exact Heq | exact Hin].
  - intros d x.
    destruct (tracking_clips_agree _ sigma (float_orientation_error_kind d x) Hd)
      as [Heq Hin].
    unfold NonFinite.K.reward_tracking_orientation,
      NonFinite.W.reward_tracking_orientation.
    cbv zeta. split; [f_equal; exact Heq | exact Hin].
Qed.

Lemma C9_tracking_agree_witness :
  K.reward_tracking_lin_vel [1; 0; 0] upright at_rest (1 / 4)
    = W.reward_tracking_lin_vel [1; 0; 0] upright at_rest (1 / 4) /\
  NonFinite.K.reward_tracking_lin_vel
      [NonFinite.Fin 1; NonFinite.Fin 0; NonFinite.Fin 0]
      (NonFinite.finite_pose upright) (NonFinite.finite_motion at_rest) (1 / 4)
    = NonFinite.W.reward_tracking_lin_vel
        [NonFinite.Fin 1; NonFinite.Fin 0; NonFinite.Fin 0]
        (NonFinite.finite_pose upright) (NonFinite.finite_motion at_rest) (1 / 4) /\
  K.reward_termination true 3 10 = W.reward_termination true 3 10.
Proof.
  destruct C9_tracking_and_termination_agree as [Htrack Hterm].
  assert (Hs : - EPS < 1 / 4) by (pose proof EPS_pos; lra).
  destruct (Htrack (1 / 4) Hs) as [Hlin [_ [_ [Hflin _]]]].
  split; [apply Hlin | split; [apply Hflin | apply Hterm]].
Defined.

(** ** Orientation and body-frame tracking *)

Lemma vec3_eq (a b c a' b' c' : R) :
  a = a' -> b = b' -> c = c' -> V3 a b c = V3 a' b' c'.
Proof. intros -> -> ->. reflexivity. Qed.

(** Rotating by a quaternion scales the squared length by the square of
    the quaternion's squared length. *)
Lemma rotate_norm2 (v : vec3) (q : quat) :
  norm2 (math.rotate v q) = qnorm2 q * qnorm2 q * norm2 v.
Proof.
  destruct v as [a b c]. destruct q as [w x y z].
  unfold norm2, qnorm2, math.rotate, dot3, add3, scale3, cross3. simpl. ring.
Qed.

(** Rotating back with the inverse quaternion returns the vector, up to
    the same factor. *)
Lemma rotate_quat_inv (v : vec3) (q : quat) :
  math.rotate (math.rotate v q) (math.quat_inv q)
    = scale3 (qnorm2 q * qnorm2 q) v.
Proof.
  destruct v as [a b c]. destruct q as [w x y z].
  unfold qnorm2, math.rotate, math.quat_inv, dot3, add3, scale3, cross3. simpl.
  apply vec3_eq; ring.
Qed.

Lemma rotate_unit_roundtrip (v : vec3) (q : quat) :
  qnorm2 q = 1 -> math.rotate (math.rotate v q) (math.quat_inv q) = v.
Proof.
  intro H. rewrite rotate_quat_inv, H. destruct v as [a b c].
  unfold scale3. simpl. apply vec3_eq; ring.
Qed.

Lemma orientation_raw (q : quat) :
  sum (map square (xy (math.rotate (V3 0 0 1) q)))
    = qnorm2 q * qnorm2 q - square (c2 (math.rotate (V3 0 0 1) q)).
Proof.
  pose proof (rotate_norm2 (V3 0 0 1) q) as H.
  destruct (math.rotate (V3 0 0 1) q) as [a b c].
  unfold norm2, dot3 in H. cbn [c0 c1 c2] in H.
  unfold xy, sum, square. cbn [map fold_right c0 c1 c2]. lra.
Qed.

(** X1: for a unit base quaternion the tilt penalty before the clip is
    [1 - z * z], with [z] the vertical component of the rotated up
    vector.  So the unit-interval [reward_orientation] is [(1 - z*z)/2]
    and never exceeds 1/2, and the signed-wide one is [1 - z*z], at most
    1: neither clip is ever reached. *)
Theorem X1_orientation_unit_quaternion (x : Transform) :
  qnorm2 (baseq (rot x)) = 1 ->
  let z := c2 (math.rotate (V3 0 0 1) (baseq (rot x))) in
  K.reward_orientation x = (1 - z * z) / 2 /\
  W.reward_orientation x = 1 - z * z /\
  0 <= K.reward_orientation x <= 1 / 2 /\
  0 <= W.reward_orientation x <= 1.
Proof.
  intros Hq z.
  pose proof (orientation_raw (baseq (rot x))) as Hraw.
  pose proof (sum_squares_nonneg (xy (math.rotate (V3 0 0 1) (baseq (rot x))))) as Hpos.
  rewrite Hq in Hraw. fold z in Hraw.
  assert (Hz : 0 <= z * z) by (apply (square_nonneg z)).
  assert (Hsq : square z = z * z) by reflexivity.
  assert (HK : K.reward_orientation x = (1 - z * z) / 2).
  { unfold K.reward_orientation. cbv zeta. rewrite Hraw, Hsq.
    rewrite Hraw, Hsq in Hpos. rewrite clip_inside; lra. }
  assert (HW : W.reward_orientation x = 1 - z * z).
  { unfold W.reward_orientation. cbv zeta. rewrite Hraw, Hsq.
    rewrite Hraw, Hsq in Hpos. rewrite clip_inside; lra. }
  rewrite Hraw, Hsq in Hpos.
  rewrite HK, HW. repeat split; lra.
Qed.

Lemma X1_orientation_witness :
  K.reward_orientation upright = (1 - 1 * 1) / 2.
Proof.
  assert (Hq : qnorm2 (baseq (rot upright)) = 1)
    by (unfold qnorm2, upright; simpl; ring).
  pose proof (proj1 (X1_orientation_unit_quaternion upright Hq)) as H.
  cbv zeta in H. rewrite H.
  unfold math.rotate, upright, add3, scale3, cross3, dot3. simpl.
  f_equal. ring.
Defined.

(** X2: [reward_orientation] is 0 in both files for an upright base, and
    also for a base turned upside down by half a turn about any
    horizontal axis [(a, b, 0)]: the term reads only the horizontal
    components of the rotated up vector, and the inverted up vector has
    none. *)
Theorem X2_orientation_blind_to_inversion (a b : R) (p : list vec3) (others : list quat) :
  a * a + b * b = 1 ->
  math.rotate (V3 0 0 1) (Q4 0 a b 0) = V3 0 0 (-1) /\
  K.reward_orientation {| pos := p; rot := Q4 0 a b 0 :: others |} = 0 /\
  W.reward_orientation {| pos := p; rot := Q4 0 a b 0 :: others |} = 0 /\
  K.reward_orientation {| pos := p; rot := Q4 1 0 0 0 :: others |} = 0 /\
  W.reward_orientation {| pos := p; rot := Q4 1 0 0 0 :: others |} = 0.
Proof.
  intro H.
  assert (Hinv : math.rotate (V3 0 0 1) (Q4 0 a b 0) = V3 0 0 (-1)).
  { unfold math.rotate, add3, scale3, cross3, dot3. simpl.
    apply vec3_eq; try ring. nra. }
  assert (Hup : math.rotate (V3 0 0 1) (Q4 1 0 0 0) = V3 0 0 1).
  { unfold math.rotate, add3, scale3, cross3, dot3. simpl. apply vec3_eq; ring. }
  split; [exact Hinv |].
  unfold K.reward_orientation, W.reward_orientation, baseq. cbn [rot nth].
  rewrite Hinv, Hup. unfold xy, sum, square. simpl.
  repeat split; rewrite clip_inside; lra.
Qed.

Lemma X2_orientation_inverted_witness :
  K.reward_orientation {| pos := [vzero]; rot := [Q4 0 1 0 0] |} = 0.
Proof.
  apply (X2_orientation_blind_to_inversion 1 0 [vzero] []). ring.
Defined.

Lemma sum_squares_vsub_diag (v : list R) : sum (map square (vsub v v)) = 0.
Proof.
  induction v as [|a v IH]; simpl.
  - reflexivity.
  - unfold vsub in IH. unfold sum in *. simpl. rewrite IH. unfold square. ring.
Qed.

(** X3: perfect tracking in any orientation.  If the base has a unit
    orientation [q], its world velocity is the body-frame velocity
    [(vx, vy, vz)] rotated by [q], and the command asks for [(vx, vy)],
    then the linear tracking error is 0 and [reward_tracking_lin_vel] is
    1 in both files; likewise a world angular velocity that is
    [(wx, wy, wz)] rotated by [q] under a yaw command [wz] makes
    [reward_tracking_ang_vel] 1, for any [tracking_sigma] that leaves
    the guarded denominator non-zero. *)
Theorem X3_perfect_tracking_any_orientation
    (q : quat) (vx vy vz wx wy wz tracking_sigma : R) :
  qnorm2 q = 1 ->
  tracking_sigma + EPS <> 0 ->
  let x := base_pose q in
  let xd := base_motion (math.rotate (V3 vx vy vz) q) (math.rotate (V3 wx wy wz) q) in
  K.lin_vel_error [vx; vy; wz] x xd = 0 /\
  K.ang_vel_error [vx; vy; wz] x xd = 0 /\
  K.reward_tracking_lin_vel [vx; vy; wz] x xd tracking_sigma = 1 /\
  W.reward_tracking_lin_vel [vx; vy; wz] x xd tracking_sigma = 1 /\
  K.reward_tracking_ang_vel [vx; vy; wz] x xd tracking_sigma = 1 /\
  W.reward_tracking_ang_vel [vx; vy; wz] x xd tracking_sigma = 1.
Proof.
  intros Hq _ x xd.
  assert (Hl : K.lin_vel_error [vx; vy; wz] x xd = 0).
  { unfold K.lin_vel_error, x, xd, base_pose, base_motion, base3, baseq.
    cbn [vel rot nth]. rewrite rotate_unit_roundtrip by exact Hq.
    cbn [firstn xy c0 c1]. apply sum_squares_vsub_diag. }
  assert (Ha : K.ang_vel_error [vx; vy; wz] x xd = 0).
  { unfold K.ang_vel_error, x, xd, base_pose, base_motion, base3, baseq.
    cbn [ang rot nth]. rewrite rotate_unit_roundtrip by exact Hq.
    cbn [c2]. unfold square. ring. }
  assert (Hone : forall d lo hi, lo <= 1 <= hi -> clip (exp (- 0 / d)) lo hi = 1).
  { intros d lo hi H. rewrite exp_decay_peak. apply clip_inside. exact H. }
  split; [exact Hl |]. split; [exact Ha |].
  assert (Hl' : W.lin_vel_error [vx; vy; wz] x xd = 0) by exact Hl.
  assert (Ha' : W.ang_vel_error [vx; vy; wz] x xd = 0) by exact Ha.
  unfold K.reward_tracking_lin_vel, W.reward_tracking_lin_vel,
    K.reward_tracking_ang_vel, W.reward_tracking_ang_vel. cbv zeta.
  rewrite Hl, Ha, Hl', Ha'.
  repeat split; apply Hone; lra.
Qed.

Lemma X3_perfect_tracking_witness :
  K.reward_tracking_lin_vel [1; 2; 3] (base_pose (Q4 0 1 0 0))
    (base_motion (math.rotate (V3 1 2 0) (Q4 0 1 0 0))
                 (math.rotate (V3 0 0 3) (Q4 0 1 0 0))) (1 / 4) = 1.
Proof.
  assert (Hq : qnorm2 (Q4 0 1 0 0) = 1) by (unfold qnorm2; simpl; ring).
  assert (Hs : 1 / 4 + EPS <> 0) by (unfold EPS; lra).
  pose proof (X3_perfect_tracking_any_orientation (Q4 0 1 0 0) 1 2 0 0 0 3 (1 / 4) Hq Hs) as H.
  cbv zeta in H. exact (proj1 (proj2 (proj2 H))).
Defined.

(** ** How the two files relate *)

Lemma clip_rescale (raw d : R) :
  0 < d <= 1000 ->
  clip (clip raw (-1000) 1000 / d) 0 1 = clip (raw / d) 0 1.
Proof.
  intros Hd.
  assert (Hinv : 0 < / d) by (apply Rinv_0_lt_compat; lra).
  assert (Hone : 1 <= 1000 / d).
  { apply Rmult_le_reg_r with d; [lra |].
    unfold Rdiv. rewrite Rmult_assoc, Rinv_l by lra. lra. }
  destruct (Rle_dec raw (-1000)) as [Hlo | Hlo].
  - rewrite (clip_below raw) by lra.
    rewrite !clip_below; try lra; unfold Rdiv; nra.
  - destruct (Rle_dec 1000 raw) as [Hhi | Hhi].
    + rewrite (clip_above raw) by lra.
      rewrite !clip_above; try lra. unfold Rdiv in *. nra.
    + rewrite (clip_inside raw) by lra. reflexivity.
Qed.

(** X4: for the ten terms whose unit-interval divisor is at most 1000,
    the value of [rewards_test_k.py] is recovered from the value of
    [rewards_test_w.py]: it is the signed-wide value over the divisor,
    clipped to [0, 1].  The wide clip never hides anything the
    unit-interval file shows. *)
Theorem X4_unit_interval_from_signed_wide :
  (forall xd, K.reward_lin_vel_z xd = clip (W.reward_lin_vel_z xd / 4) 0 1) /\
  (forall xd, K.reward_ang_vel_xy xd = clip (W.reward_ang_vel_xy xd / 25) 0 1) /\
  (forall x, K.reward_orientation x = clip (W.reward_orientation x / 2) 0 1) /\
  (forall t v,
     K.reward_mechanical_work t v = clip (W.reward_mechanical_work t v / 600) 0 1) /\
  (forall a la, K.reward_action_rate a la = clip (W.reward_action_rate a la / 48) 0 1) /\
  (forall air fc c m,
     K.reward_feet_air_time air fc c m = clip (W.reward_feet_air_time air fc c m / 2) 0 1) /\
  (forall ja des,
     K.reward_abduction_angle ja des
       = clip (W.reward_abduction_angle ja des / (PI * PI)) 0 1) /\
  (forall c ja pose thr,
     K.reward_stand_still c ja pose thr
       = clip (W.reward_stand_still c ja pose thr / (12 * PI)) 0 1) /\
  (forall st cf feet legs,
     K.reward_foot_slip st cf feet legs
       = clip (W.reward_foot_slip st cf feet legs / 16) 0 1) /\
  (forall st ids,
     K.reward_geom_collision st ids = clip (W.reward_geom_collision st ids / 10) 0 1).
Proof.
  pose proof pi_squared_range. pose proof twelve_pi_range.
  repeat match goal with |- _ /\ _ => split end; intros;
    symmetry; apply clip_rescale; lra.
Qed.

Lemma sum_squares_single (a : R) : sum (map square [a]) = a * a.
Proof. unfold sum, square. simpl. ring. Qed.

(** X5: [reward_torques] is the exception.  While the sum of squared
    torques is at most 1000 the unit-interval value is the signed-wide
    value over 1200; above 1000 the signed-wide file is already clipped
    to 1000 while the unit-interval file still grows until the sum
    reaches 1200, so between the two the wide value no longer determines
    the unit-interval one. *)
Theorem X5_torques_wide_clip_comes_first (torques : list R) :
  let s := sum (map square torques) in
  (s <= 1000 ->
     W.reward_torques torques = s /\ K.reward_torques torques = s / 1200) /\
  (1000 < s ->
     W.reward_torques torques = 1000 /\
     5 / 6 < K.reward_torques torques /\
     (K.reward_torques torques = 1 <-> 1200 <= s)).
Proof.
  intro s. pose proof (sum_squares_nonneg torques) as Hs. fold s in Hs.
  unfold W.reward_torques, K.reward_torques. fold s.
  split.
  - intro H. rewrite !clip_inside; lra.
  - intro H. rewrite clip_above by lra.
    destruct (Rle_dec 1200 s) as [Hb | Hb].
    + rewrite clip_above by lra. repeat split; intros; lra.
    + rewrite clip_inside by lra. repeat split; intros; lra.
Qed.

Lemma X5_torques_witness :
  W.reward_torques [33] = 1000 /\ 5 / 6 < K.reward_torques [33].
Proof.
  pose proof (X5_torques_wide_clip_comes_first [33]) as H. cbv zeta in H.
  destruct H as [_ H].
  assert (Hs : 1000 < sum (map square [33])) by (rewrite sum_squares_single; lra).
  destruct (H Hs) as [HW [HK _]]. split; assumption.
Defined.

(** X6: over floats and on every input, a negative [tracking_sigma],
    a zero denominator and not-a-number included, each tracking term
    returns in both files, the value of [rewards_test_k.py] is the
    minimum of 1 and the value of [rewards_test_w.py], and neither is
    negative: the first is a number of [0, 1] or not-a-number, the
    second a number of [0, 1000] or not-a-number. *)
Theorem X6_tracking_unit_is_min_of_wide :
  (forall c x xd sigma,
     exists k w,
       NonFinite.K.reward_tracking_lin_vel c x xd sigma = NonFinite.Returns k /\
       NonFinite.W.reward_tracking_lin_vel c x xd sigma = NonFinite.Returns w /\
       k = NonFinite.fminimum w (NonFinite.Fin 1) /\
       NonFinite.within_or_nan 0 1 k /\ NonFinite.within_or_nan 0 1000 w) /\
  (forall c x xd sigma,
     exists k w,
       NonFinite.K.reward_tracking_ang_vel c x xd sigma = NonFinite.Returns k /\
       NonFinite.W.reward_tracking_ang_vel c x xd sigma = NonFinite.Returns w /\
       k = NonFinite.fminimum w (NonFinite.Fin 1) /\
       NonFinite.within_or_nan 0 1 k /\ NonFinite.within_or_nan 0 1000 w) /\
  (forall d x sigma,
     exists k w,
       NonFinite.K.reward_tracking_orientation d x sigma = NonFinite.Returns k /\
       NonFinite.W.reward_tracking_orientation d x sigma = NonFinite.Returns w /\
       k = NonFinite.fminimum w (NonFinite.Fin 1) /\
       NonFinite.within_or_nan 0 1 k /\ NonFinite.within_or_nan 0 1000 w).
Proof.
  assert (H : forall err sigma,
    exists k w,
      NonFinite.Returns
        (NonFinite.fclip (NonFinite.decay err sigma) (NonFinite.Fin 0) (NonFinite.Fin 1))
        = NonFinite.Returns k /\
      NonFinite.Returns
        (NonFinite.fclip (NonFinite.decay err sigma)
           (NonFinite.Fin (-1000)) (NonFinite.Fin 1000))
        = NonFinite.Returns w /\
      k = NonFinite.fminimum w (NonFinite.Fin 1) /\
      NonFinite.within_or_nan 0 1 k /\ NonFinite.within_or_nan 0 1000 w).
  { intros err sigma. unfold NonFinite.decay.
    pose proof (fexp_squared_kind
      (NonFinite.fdiv (NonFinite.fneg err) (NonFinite.Fin (sigma + EPS)))) as Hk.
    destruct (fclip_unit_of_wide _ Hk) as [Hmin _].
    destruct (fclip_squared_bounds _ Hk) as [Hu Hw].
    eexists. eexists. split; [reflexivity | split; [reflexivity |]].
    split; [exact Hmin | split; [exact Hu | exact Hw]]. }
  repeat match goal with |- _ /\ _ => split end; intros; apply H.
Qed.

(** ** Gait terms *)

Lemma air_time_sum_nonpos (air_time : list R) (first_contact : list bool) (m : R) :
  short_flights air_time first_contact m -> air_time_sum air_time first_contact m <= 0.
Proof.
  unfold short_flights, air_time_sum, vmask, vsubs.
  revert first_contact. induction air_time as [|a air IH]; intros [|b fc] H;
    try (simpl; lra).
  cbn [combine] in H. inversion H as [|p l Hp Hl]; subst.
  cbn [map zip_with]. unfold sum in *. cbn [fold_right].
  specialize (IH fc Hl). cbn [fst snd] in Hp.
  destruct b; simpl.
  - specialize (Hp eq_refl). lra.
  - lra.
Qed.

Lemma air_time_sum_no_landing (air_time : list R) (first_contact : list bool) (m : R) :
  Forall (fun b => b = false) first_contact -> air_time_sum air_time first_contact m = 0.
Proof.
  unfold air_time_sum, vmask, vsubs.
  revert first_contact. induction air_time as [|a air IH]; intros [|b fc] H;
    try reflexivity.
  inversion H as [|b' l Hb Hl]; subst.
  cbn [map zip_with]. unfold sum in *. cbn [fold_right].
  rewrite (IH fc Hl). simpl. lra.
Qed.

(** X7: with a command above the gate, the two files treat short
    flights differently.  If no foot that landed was in the air longer
    than [minimum_airtime], the unit-interval [reward_feet_air_time] is 0,
    while the signed-wide one is the non-positive sum itself (not below
    -1000): only the signed-wide file penalises short steps.  If no foot
    landed at all, both are 0. *)
Theorem X7_feet_air_time_short_flights
    (air_time : list R) (first_contact : list bool) (commands : list R) (m : R) :
  5 / 100 < command_norm commands ->
  (short_flights air_time first_contact m ->
     K.reward_feet_air_time air_time first_contact commands m = 0 /\
     W.reward_feet_air_time air_time first_contact commands m
       = Rmax (air_time_sum air_time first_contact m) (-1000) /\
     W.reward_feet_air_time air_time first_contact commands m <= 0) /\
  (Forall (fun b => b = false) first_contact ->
     K.reward_feet_air_time air_time first_contact commands m = 0 /\
     W.reward_feet_air_time air_time first_contact commands m = 0).
Proof.
  intro Hgate.
  assert (HK : K.reward_feet_air_time air_time first_contact commands m
               = clip (air_time_sum air_time first_contact m / 2) 0 1).
  { unfold K.reward_feet_air_time. cbv zeta.
    change (snd (math.normalize (firstn 3 commands))) with (command_norm commands).
    rewrite Rltb_true by exact Hgate. unfold air_time_sum. simpl b2r.
    rewrite Rmult_1_r. reflexivity. }
  assert (HW : W.reward_feet_air_time air_time first_contact commands m
               = clip (air_time_sum air_time first_contact m) (-1000) 1000).
  { unfold W.reward_feet_air_time. cbv zeta.
    change (snd (math.normalize (firstn 3 commands))) with (command_norm commands).
    rewrite Rltb_true by exact Hgate. unfold air_time_sum. simpl b2r.
    rewrite Rmult_1_r. reflexivity. }
  rewrite HK, HW. split.
  - intro Hshort. pose proof (air_time_sum_nonpos _ _ _ Hshort) as Hs.
    split; [apply clip_below; lra |].
    assert (Hc : clip (air_time_sum air_time first_contact m) (-1000) 1000
                 = Rmax (air_time_sum air_time first_contact m) (-1000)).
    { unfold clip. apply Rmin_left. unfold Rmax.
      destruct (Rle_dec _ _); lra. }
    rewrite Hc. split; [reflexivity |].
    unfold Rmax. destruct (Rle_dec _ _); lra.
  - intro Hnone. rewrite (air_time_sum_no_landing _ _ _ Hnone).
    split; rewrite clip_inside; lra.
Qed.

Lemma X7_feet_air_time_witness :
  K.reward_feet_air_time [1 / 20] [true] [1; 0; 0] (1 / 10) = 0 /\
  W.reward_feet_air_time [1 / 20] [true] [1; 0; 0] (1 / 10) <= 0.
Proof.
  assert (Hg : 5 / 100 < command_norm [1; 0; 0]).
  { change (command_norm [1; 0; 0]) with (snd (math.normalize (firstn 3 [1; 0; 0]))).
    rewrite command_forward_far. lra. }
  assert (Hs : short_flights [1 / 20] [true] (1 / 10)).
  { unfold short_flights. cbn [combine]. constructor; [| constructor].
    intros _. cbn [fst]. lra. }
  destruct (proj1 (X7_feet_air_time_short_flights [1 / 20] [true] [1; 0; 0] (1 / 10) Hg) Hs)
    as [HK [_ HW]].
  split; assumption.
Defined.

(** The slice [a[1::3]] read with a phase: [stride3 p] keeps the entries
    whose index is [p] modulo 3. *)
Lemma stride3_agree (p : nat) (a a' : list R) :
  (p < 3)%nat ->
  List.length a = List.length a' ->
  (forall i, (i mod 3 = p)%nat -> nth i a 0 = nth i a' 0) ->
  stride3 p a = stride3 p a'.
Proof.
  revert p a'. induction a as [|x a IH]; intros p [|x' a'] Hp Hlen Hag;
    try reflexivity; try discriminate.
  cbn [List.length] in Hlen. injection Hlen as Hlen.
  cbn [stride3]. destruct p as [|p].
  - assert (Hx : x = x') by (apply (Hag 0%nat); reflexivity).
    rewrite Hx. f_equal. apply IH; [lia | exact Hlen |].
    intros i Hi. apply (Hag (S i)).
    rewrite <- Nat.add_1_r.
    rewrite Nat.Div0.add_mod, Hi by lia. reflexivity.
  - apply IH; [lia | exact Hlen |].
    intros i Hi. apply (Hag (S i)).
    rewrite <- Nat.add_1_r.
    rewrite Nat.Div0.add_mod, Hi by lia.
    destruct p as [|[|p]]; [reflexivity | reflexivity | lia].
Qed.

(** X8: [reward_abduction_angle] reads the joints at indices 1, 4, 7,
    10, ... and nothing else.  Two joint arrays of one length that agree
    at every index that is 1 modulo 3 get the same value in both files,
    whatever the hip-swing and knee angles at the other indices are. *)
Theorem X8_abduction_reads_every_third_joint
    (joint_angles joint_angles' desired : list R) :
  same_abduction joint_angles joint_angles' ->
  K.reward_abduction_angle joint_angles desired
    = K.reward_abduction_angle joint_angles' desired /\
  W.reward_abduction_angle joint_angles desired
    = W.reward_abduction_angle joint_angles' desired.
Proof.
  intros [Hlen Hag].
  unfold K.reward_abduction_angle, W.reward_abduction_angle, slice_1_3.
  rewrite (stride3_agree 1 joint_angles joint_angles') by (try lia; assumption).
  split; reflexivity.
Qed.

Lemma X8_abduction_witness :
  K.reward_abduction_angle [5; 1; 7; 0; 2; 9] [0; 0]
    = K.reward_abduction_angle [0; 1; 0; 0; 2; 0] [0; 0].
Proof.
  apply (X8_abduction_reads_every_third_joint [5; 1; 7; 0; 2; 9] [0; 1; 0; 0; 2; 0] [0; 0]).
  split; [reflexivity |].
  intros i Hi.
  destruct i as [|[|[|[|[|[|i]]]]]]; try reflexivity; try discriminate Hi.
Defined.

From Stdlib Require Import Permutation.

(** ** Foot slip *)

Lemma rotate_by_identity (v : vec3) : math.rotate v (math.quat_inv (Q4 1 0 0 0)) = v.
Proof.
  destruct v as [a b c].
  unfold math.rotate, math.quat_inv, add3, scale3, cross3, dot3. simpl.
  apply vec3_eq; ring.
Qed.

Lemma vmap_do_created (p : list vec3) (m : Motion) :
  vel (Transform_vmap_do (Transform_create p) m)
    = zip_with offset_velocity p (combine (vel m) (ang m)).
Proof.
  unfold Transform_vmap_do, Transform_create. cbn [pos rot vel].
  generalize (combine (vel m) (ang m)) as l.
  induction p as [|r p IH]; intros [|va l]; try reflexivity.
  cbn [map combine zip_with fst snd]. rewrite IH.
  unfold transform_do1, offset_velocity. cbn [fst].
  rewrite rotate_by_identity. reflexivity.
Qed.

Lemma masked_speed_no_contact (foot_vel : list vec3) (contact_filt : list bool) :
  Forall (fun b => b = false) contact_filt -> masked_planar_speed foot_vel contact_filt = 0.
Proof.
  unfold masked_planar_speed.
  revert contact_filt. induction foot_vel as [|v fv IH]; intros [|b cf] H;
    try reflexivity.
  inversion H as [|b' l Hb Hl]; subst.
  cbn [zip_with]. unfold sum in *. cbn [fold_right]. rewrite (IH cf Hl).
  unfold xy, square. simpl. lra.
Qed.

(** X9: the foot velocity [reward_foot_slip] penalises is the velocity
    of the lower-leg body minus the cross product of the foot offset with
    the body's angular velocity: the offset transform is created without
    a rotation, so nothing is rotated.  With no foot in contact the term
    is 0 in both files, whatever the velocities. *)
Theorem X9_foot_slip_offset_velocity
    (st : State) (contact_filt : list bool) (feet_site_id lower_leg_body_id : list Z) :
  foot_velocities st feet_site_id lower_leg_body_id
    = zip_with offset_velocity
        (foot_offsets st feet_site_id lower_leg_body_id)
        (combine (vel (leg_motion st lower_leg_body_id))
                 (ang (leg_motion st lower_leg_body_id))) /\
  (Forall (fun b => b = false) contact_filt ->
     K.reward_foot_slip st contact_filt feet_site_id lower_leg_body_id = 0 /\
     W.reward_foot_slip st contact_filt feet_site_id lower_leg_body_id = 0).
Proof.
  split.
  - unfold foot_velocities. cbv zeta. apply vmap_do_created.
  - intro H. unfold K.reward_foot_slip, W.reward_foot_slip. cbv zeta.
    rewrite masked_speed_no_contact by exact H.
    split; rewrite clip_inside; lra.
Qed.

Lemma X9_foot_slip_witness :
  K.reward_foot_slip
    {| site_xpos := [V3 1 0 0]; xpos := [vzero; vzero];
       xd := base_motion (V3 3 0 0) (V3 0 0 1); contact := [] |}
    [false] [0%Z] [1%Z] = 0.
Proof.
  apply (X9_foot_slip_offset_velocity _ [false] [0%Z] [1%Z]).
  constructor; [reflexivity | constructor].
Defined.

(** ** Counting collisions *)

Lemma sum_permutation (u v : list R) : Permutation u v -> sum u = sum v.
Proof.
  induction 1 as [| a u v _ IH | a b u | u v w _ IH1 _ IH2];
    unfold sum in *; simpl; lra.
Qed.

Lemma touching_permutation (cs cs' : list contact_pair) (id : Z) :
  Permutation cs cs' -> touching cs id = touching cs' id.
Proof. intro H. unfold touching. apply sum_permutation, Permutation_map, H. Qed.

Lemma touching_swap (cs : list contact_pair) (id : Z) :
  touching (map swap_geoms cs) id = touching cs id.
Proof.
  unfold touching. rewrite map_map. f_equal. apply map_ext.
  intro c. unfold swap_geoms. cbn [geom1 geom2 dist]. rewrite orb_comm. reflexivity.
Qed.

(** X10: the collision count, and with it [reward_geom_collision] of
    both files, does not depend on the order of the contact rows, on the
    order of the watched ids, or on which geometry of a pair is listed
    first. *)
Theorem X10_collision_count_order_free
    (cs cs' : list contact_pair) (geom_ids geom_ids' : list Z) :
  Permutation cs cs' -> Permutation geom_ids geom_ids' ->
  collision_count cs geom_ids = collision_count cs' geom_ids' /\
  collision_count (map swap_geoms cs) geom_ids = collision_count cs geom_ids /\
  (forall st,
     K.reward_geom_collision (set_contact st cs) geom_ids
       = K.reward_geom_collision (set_contact st cs') geom_ids' /\
     W.reward_geom_collision (set_contact st cs) geom_ids
       = W.reward_geom_collision (set_contact st cs') geom_ids').
Proof.
  intros Hc Hi.
  assert (H1 : collision_count cs geom_ids = collision_count cs' geom_ids').
  { rewrite !collision_count_sum.
    rewrite (map_ext (touching cs) (touching cs'))
      by (intro id; apply touching_permutation; exact Hc).
    apply sum_permutation, Permutation_map, Hi. }
  split; [exact H1 |]. split.
  - rewrite !collision_count_sum. f_equal. apply map_ext.
    intro id. apply touching_swap.
  - intro st. rewrite !K_geom_collision_unfold, !W_geom_collision_unfold.
    unfold set_contact. cbn [contact]. rewrite H1. split; reflexivity.
Qed.

Lemma X10_collision_order_witness :
  collision_count
    [ {| geom1 := 5; geom2 := 9; dist := - (1 / 100) |};
      {| geom1 := 1; geom2 := 2; dist := 1 / 2 |} ] [9%Z; 1%Z]
  = collision_count
    [ {| geom1 := 1; geom2 := 2; dist := 1 / 2 |};
      {| geom1 := 5; geom2 := 9; dist := - (1 / 100) |} ] [1%Z; 9%Z].
Proof.
  apply X10_collision_count_order_free; apply perm_swap.
Defined.

(** X11: the collision count is a whole number: the number of pairs
    (penetrating contact row, watched id the row touches).  A watched id
    listed twice counts twice, and without contacts or without watched
    ids the count is 0. *)
Theorem X11_collision_count_is_a_number_of_pairs
    (cs : list contact_pair) (geom_ids : list Z) :
  collision_count cs geom_ids
    = INR (list_sum (map (fun c => matching_ids c geom_ids) (penetrating cs))) /\
  collision_count cs (geom_ids ++ geom_ids) = 2 * collision_count cs geom_ids /\
  collision_count [] geom_ids = 0 /\
  collision_count cs [] = 0.
Proof.
  split; [| split; [| split]].
  - induction cs as [|c cs IH].
    + rewrite collision_count_no_penetration by (intros c []). reflexivity.
    + rewrite (collision_count_insert [] cs c). cbn [app]. rewrite IH.
      unfold penetrating. cbn [filter].
      destruct (Rlt_dec (dist c) 0) as [Hd | Hd].
      * rewrite (Rltb_true _ _ Hd). unfold list_sum. cbn [map fold_right].
        rewrite plus_INR, collision_count_one by exact Hd. lra.
      * rewrite (Rltb_false (dist c) 0) by lra.
        rewrite (collision_count_no_penetration [c]); [lra |].
        intros c' [<- | []]. lra.
  - rewrite !collision_count_sum, map_app, sum_app. lra.
  - apply collision_count_no_penetration. intros c [].
  - reflexivity.
Qed.

(** ** Smoothness and work *)

Lemma sum_squares_zero (v : list R) :
  sum (map square v) = 0 -> Forall (fun a => a = 0) v.
Proof.
  induction v as [|a v IH]; intro H.
  - constructor.
  - unfold sum in H. cbn [map fold_right] in H.
    change (fold_right Rplus 0 (map square v)) with (sum (map square v)) in H.
    pose proof (square_nonneg a) as Ha.
    pose proof (sum_squares_nonneg v) as Hv.
    constructor.
    + unfold square in *. nra.
    + apply IH. lra.
Qed.

Lemma vsub_zero_eq (u v : list R) :
  List.length u = List.length v ->
  Forall (fun a => a = 0) (vsub u v) -> u = v.
Proof.
  revert v. induction u as [|a u IH]; intros [|b v] Hlen H;
    try reflexivity; try discriminate.
  unfold vsub in *. cbn [zip_with] in H. inversion H as [|d l Hd Hl]; subst.
  injection Hlen as Hlen. f_equal; [lra | apply IH; assumption].
Qed.

Lemma vdivs_zero (u : list R) (d : R) :
  d <> 0 -> Forall (fun a => a = 0) (vdivs u d) -> Forall (fun a => a = 0) u.
Proof.
  intros Hd H. unfold vdivs in H. rewrite Forall_map in H.
  eapply Forall_impl; [| exact H]. cbn beta. intros a Ha.
  apply Rmult_eq_reg_r with (/ d); [| apply Rinv_neq_0_compat; exact Hd].
  unfold Rdiv in Ha. lra.
Qed.

Lemma clip_unit_zero (raw d : R) : 0 <= raw -> 0 < d -> (clip (raw / d) 0 1 = 0 <-> raw = 0).
Proof.
  intros Hr Hd. assert (Hi : 0 < / d) by (apply Rinv_0_lt_compat; exact Hd).
  split.
  - intro H. destruct (Rle_dec (raw / d) 1) as [H1 | H1].
    + rewrite clip_inside in H by (unfold Rdiv in *; nra). unfold Rdiv in H. nra.
    + rewrite clip_above in H; lra.
  - intros ->. rewrite clip_inside; unfold Rdiv; lra.
Qed.

Lemma clip_wide_zero (raw : R) : clip raw (-1000) 1000 = 0 <-> raw = 0.
Proof.
  split.
  - intro H. destruct (Rle_dec raw (-1000)) as [H1 | H1].
    + rewrite clip_below in H; lra.
    + destruct (Rle_dec raw 1000) as [H2 | H2].
      * rewrite clip_inside in H; lra.
      * rewrite clip_above in H; lra.
  - intros ->. apply clip_inside. lra.
Qed.

Lemma vsub_same_squares (v : list R) (d : R) :
  sum (map square (vdivs (vsub v v) d)) = 0.
Proof.
  induction v as [|a v IH].
  - reflexivity.
  - unfold vsub, vdivs in *. cbn [zip_with map]. unfold sum in *. cbn [fold_right].
    rewrite IH. unfold square, Rdiv. ring.
Qed.

(** X12: the smoothness penalties vanish exactly when nothing changed.
    For action arrays of one length, [reward_action_rate] is 0 in either
    file if and only if the action equals the previous action; for joint
    velocity arrays of one length and a non-zero [dt + EPS],
    [reward_joint_acceleration] is 0 if and only if the joint velocities
    equal the previous ones. *)
Theorem X12_smoothness_zero_iff_unchanged (u v : list R) (dt : R) :
  List.length u = List.length v ->
  dt + EPS <> 0 ->
  (K.reward_action_rate u v = 0 <-> u = v) /\
  (W.reward_action_rate u v = 0 <-> u = v) /\
  (K.reward_joint_acceleration u v dt = 0 <-> u = v) /\
  (W.reward_joint_acceleration u v dt = 0 <-> u = v).
Proof.
  intros Hlen Hd.
  assert (Hact : sum (map square (vsub u v)) = 0 <-> u = v).
  { split.
    - intro H. apply vsub_zero_eq; [exact Hlen | apply sum_squares_zero; exact H].
    - intros ->. apply sum_squares_vsub_diag. }
  assert (Hacc : sum (map square (vdivs (vsub u v) (dt + EPS))) = 0 <-> u = v).
  { split.
    - intro H. apply vsub_zero_eq; [exact Hlen |].
      apply vdivs_zero with (dt + EPS); [exact Hd |].
      apply sum_squares_zero. exact H.
    - intros ->. apply vsub_same_squares. }
  unfold K.reward_action_rate, W.reward_action_rate,
    K.reward_joint_acceleration, W.reward_joint_acceleration. cbv zeta.
  rewrite !clip_unit_zero by (try apply sum_squares_nonneg; lra).
  rewrite !clip_wide_zero.
  repeat split; first [apply Hact | apply Hacc].
Qed.

Lemma X12_smoothness_witness :
  K.reward_action_rate [1; 2] [1; 2] = 0.
Proof.
  assert (Hd : 1 / 50 + EPS <> 0) by (unfold EPS; lra).
  apply (proj1 (X12_smoothness_zero_iff_unchanged [1; 2] [1; 2] (1 / 50) eq_refl Hd)).
  reflexivity.
Defined.

Lemma vmul_comm (t v : list R) : vmul t v = vmul v t.
Proof.
  revert v. induction t as [|a t IH]; intros [|b v]; try reflexivity.
  unfold vmul in *. cbn [zip_with]. rewrite IH. f_equal. ring.
Qed.

Lemma vmul_abs_opp (t v : list R) :
  map Rabs (vmul (map Ropp t) v) = map Rabs (vmul t v).
Proof.
  revert v. induction t as [|a t IH]; intros [|b v]; try reflexivity.
  unfold vmul in *. cbn [map zip_with]. rewrite IH. f_equal.
  replace (- a * b) with (- (a * b)) by ring. apply Rabs_Ropp.
Qed.

(** X13: [reward_mechanical_work] takes the absolute value of every
    joint's power, so it does not tell driving from braking: reversing
    every torque leaves the term unchanged in both files, and so does
    exchanging torques and velocities. *)
Theorem X13_mechanical_work_sign_blind (torques velocities : list R) :
  K.reward_mechanical_work (map Ropp torques) velocities
    = K.reward_mechanical_work torques velocities /\
  W.reward_mechanical_work (map Ropp torques) velocities
    = W.reward_mechanical_work torques velocities /\
  K.reward_mechanical_work velocities torques
    = K.reward_mechanical_work torques velocities /\
  W.reward_mechanical_work velocities torques
    = W.reward_mechanical_work torques velocities.
Proof.
  unfold K.reward_mechanical_work, W.reward_mechanical_work.
  rewrite vmul_abs_opp, (vmul_comm velocities torques).
  repeat split; reflexivity.
Qed.

(** ** Shapes and overflow in the float reading *)

Section FloatReading.
Local Abbreviation real_K_reward_stand_still := K.reward_stand_still.
Local Abbreviation real_W_reward_stand_still := W.reward_stand_still.
Import NonFinite.

Lemma broadcast_mismatch (f : fval -> fval -> fval) (u v : list fval) :
  List.length u <> List.length v -> List.length u <> 1%nat -> List.length v <> 1%nat ->
  broadcast2 f u v = Raises IncompatibleShapes.
Proof.
  intros Hne Hu Hv. unfold broadcast2.
  destruct (Nat.eqb_spec (List.length u) (List.length v)) as [He | _]; [contradiction |].
  destruct u as [|a [|a' u]]; destruct v as [|b [|b' v]];
    cbn [List.length] in *; try reflexivity; try contradiction; try lia.
Qed.

Lemma broadcast_returns (f : fval -> fval -> fval) (u v : list fval) :
  List.length u = List.length v \/ List.length u = 1%nat \/ List.length v = 1%nat ->
  exists w, broadcast2 f u v = Returns w.
Proof.
  intro H. unfold broadcast2.
  destruct (Nat.eqb_spec (List.length u) (List.length v)) as [He | Hne];
    [eexists; reflexivity |].
  destruct H as [H | [H | H]]; [contradiction | |].
  - destruct u as [|a [|a' u]]; try discriminate H. eexists. reflexivity.
  - destruct v as [|b [|b' v]]; try discriminate H.
    destruct u as [|a [|a' u]]; eexists; reflexivity.
Qed.

(** X14: on two one-dimensional arrays whose lengths differ, neither
    being 1, [reward_joint_acceleration] and [reward_stand_still] end in
    the array library's broadcasting error in both files; when the
    lengths are equal, or one array has a single entry (which is then
    repeated), they return a value. *)
Theorem X14_shape_mismatch_is_a_broadcast_error (u v : list fval) (dt thr : R) (c : list R) :
  (List.length u <> List.length v -> List.length u <> 1%nat -> List.length v <> 1%nat ->
     NonFinite.K.reward_joint_acceleration u v dt = Raises IncompatibleShapes /\
     NonFinite.W.reward_joint_acceleration u v dt = Raises IncompatibleShapes /\
     NonFinite.K.reward_stand_still c u v thr = Raises IncompatibleShapes /\
     NonFinite.W.reward_stand_still c u v thr = Raises IncompatibleShapes) /\
  (List.length u = List.length v \/ List.length u = 1%nat \/ List.length v = 1%nat ->
     (exists r, NonFinite.K.reward_joint_acceleration u v dt = Returns r) /\
     (exists r, NonFinite.W.reward_joint_acceleration u v dt = Returns r) /\
     (exists r, NonFinite.K.reward_stand_still c u v thr = Returns r) /\
     (exists r, NonFinite.W.reward_stand_still c u v thr = Returns r)).
Proof.
  unfold NonFinite.K.reward_joint_acceleration, NonFinite.W.reward_joint_acceleration,
    NonFinite.K.reward_stand_still, NonFinite.W.reward_stand_still.
  split.
  - intros Hne Hu Hv. rewrite (broadcast_mismatch fsub u v) by assumption.
    repeat split; reflexivity.
  - intro H. destruct (broadcast_returns fsub u v H) as [w ->]. cbn [bind].
    repeat split; eexists; reflexivity.
Qed.

Lemma X14_shape_mismatch_witness :
  NonFinite.K.reward_joint_acceleration (finite [1; 2; 3]) (finite [1; 2]) (1 / 50)
    = Raises IncompatibleShapes.
Proof.
  apply (proj1 (X14_shape_mismatch_is_a_broadcast_error
                  (finite [1; 2; 3]) (finite [1; 2]) (1 / 50) 0 []));
    cbn; lia.
Defined.

(** X15: [reward_stand_still] over floats, on finite joint angles and
    poses of one length and any magnitude, returns exactly the value of
    the real-valued term in both files.  An overflowing sum of deviations
    never shows: with the gate open the clip brings plus infinity back to
    the bound, and with the gate closed the selection replaces it by
    0. *)
Theorem X15_stand_still_over_floats
    (commands joint_angles default_pose : list R) (command_threshold : R) :
  List.length joint_angles = List.length default_pose ->
  NonFinite.K.reward_stand_still commands (finite joint_angles) (finite default_pose)
      command_threshold
    = Returns (Fin (real_K_reward_stand_still commands joint_angles default_pose
                      command_threshold)) /\
  NonFinite.W.reward_stand_still commands (finite joint_angles) (finite default_pose)
      command_threshold
    = Returns (Fin (real_W_reward_stand_still commands joint_angles default_pose
                      command_threshold)) /\
  (command_threshold <= command_norm commands ->
     NonFinite.K.reward_stand_still commands (finite joint_angles) (finite default_pose)
         command_threshold = Returns (Fin 0) /\
     NonFinite.W.reward_stand_still commands (finite joint_angles) (finite default_pose)
         command_threshold = Returns (Fin 0)).
Proof.
  intro Hlen.
  assert (Hclosed : command_threshold <= command_norm commands ->
    NonFinite.K.reward_stand_still commands (finite joint_angles) (finite default_pose)
        command_threshold = Returns (Fin 0) /\
    NonFinite.W.reward_stand_still commands (finite joint_angles) (finite default_pose)
        command_threshold = Returns (Fin 0))
    by (apply stand_still_closed_floats; exact Hlen).
  destruct (Rlt_dec (command_norm commands) command_threshold) as [Hopen | Hc].
  - destruct (stand_still_open_floats commands joint_angles default_pose
                command_threshold Hlen Hopen) as [HK HW].
    split; [exact HK | split; [exact HW | exact Hclosed]].
  - assert (Hc' : command_threshold <= command_norm commands) by lra.
    destruct (Hclosed Hc') as [FK FW].
    destruct (stand_still_closed commands joint_angles default_pose _ Hc') as [RK RW].
    split; [| split; [| exact Hclosed]].
    + rewrite FK, RK. reflexivity.
    + rewrite FW, RW. reflexivity.
Qed.

Lemma X15_stand_still_floats_witness :
  NonFinite.K.reward_stand_still [0; 0; 0] (finite [1; 2]) (finite [0; 0]) (1 / 10)
    = Returns (Fin (real_K_reward_stand_still [0; 0; 0] [1; 2] [0; 0] (1 / 10))).
Proof.
  apply (proj1 (X15_stand_still_over_floats [0; 0; 0] [1; 2] [0; 0] (1 / 10) eq_refl)).
Defined.

End FloatReading.

(** ** The wheeled profile *)

Lemma scale_of_absent (cfg : list (string * R)) (key : string) :
  ~ In key (map fst cfg) -> scale_of cfg key = None.
Proof.
  induction cfg as [|[k v] cfg IH]; intro H.
  - reflexivity.
  - cbn [scale_of]. rewrite IH by (intro Hin; apply H; right; exact Hin).
    destruct (String.eqb_spec k key) as [He | _]; [| reflexivity].
    exfalso. apply H. left. exact He.
Qed.

(** A key assigned once reads back the value assigned to it. *)
Lemma scale_of_assigned (cfg : list (string * R)) (key : string) (v : R) :
  NoDup (map fst cfg) -> In (key, v) cfg -> scale_of cfg key = Some v.
Proof.
  induction cfg as [|[k w] cfg IH]; intros Hnd Hin.
  - contradiction.
  - cbn [map fst] in Hnd. inversion Hnd as [|k' l Hk Hl]; subst.
    cbn [scale_of]. destruct Hin as [Heq | Hin].
    + injection Heq as -> ->. rewrite scale_of_absent by exact Hk.
      rewrite String.eqb_refl. reflexivity.
    + rewrite (IH Hl Hin). reflexivity.
Qed.

Lemma wheeled_keys_once : NoDup (map fst wheeled_scales).
Proof.
  assert (H : nodup string_dec (map fst wheeled_scales) = map fst wheeled_scales)
    by reflexivity.
  rewrite <- H. apply NoDup_nodup.
Qed.

(** X16: the wheeled profile against the catalog.  Every scale key is
    assigned once, so each reads back its written value.  Three keys of
    the profile name no [reward_*] function of the catalog
    ([body_collision], [stand_still_joint_velocity], [knee_collision]),
    and one catalog term, [geom_collision], has no scale under its own
    name.  The only positive scales are the two velocity-tracking
    rewards; every other term is a penalty or disabled.  The profile's
    [tracking_sigma] is positive. *)
Theorem X16_wheeled_profile_against_catalog :
  (forall key v, In (key, v) wheeled_scales -> scale_of wheeled_scales key = Some v) /\
  filter (fun k => negb (mem_string k catalog_terms)) (map fst wheeled_scales)
    = [ "body_collision"; "stand_still_joint_velocity"; "knee_collision" ]%string /\
  filter (fun t => negb (mem_string t (map fst wheeled_scales))) catalog_terms
    = [ "geom_collision" ]%string /\
  Forall (fun p => 0 < snd p <->
                   fst p = "tracking_lin_vel"%string \/ fst p = "tracking_ang_vel"%string)
         wheeled_scales /\
  0 < wheeled_tracking_sigma.
Proof.
  split; [| split; [| split; [| split]]].
  - intros key v Hin. apply scale_of_assigned; [apply wheeled_keys_once | exact Hin].
  - reflexivity.
  - reflexivity.
  - unfold wheeled_scales.
    repeat (apply Forall_cons; [cbn [fst snd]; split; intro H;
      [ first [ left; reflexivity | right; reflexivity | exfalso; lra ]
      | first [ lra | destruct H as [H | H]; discriminate H ] ] |]).
    apply Forall_nil.
  - unfold wheeled_tracking_sigma. lra.
Qed.

Lemma X16_wheeled_profile_witness :
  scale_of wheeled_scales "termination"%string = Some (- 200).
Proof.
  apply (proj1 X16_wheeled_profile_against_catalog).
  unfold wheeled_scales. do 9 right. left. reflexivity.
Defined.

(** ** The design ranges named in rewards_test_k.py *)

Lemma sum_le_length (v : list R) (m : R) :
  0 <= m -> Forall (fun a => a <= m) v -> sum v <= INR (List.length v) * m.
Proof.
  intros Hm H. induction H as [|a v Ha Hv IH].
  - simpl. lra.
  - cbn [List.length]. rewrite S_INR. unfold sum in *. cbn [fold_right]. lra.
Qed.

Lemma squares_le (v : list R) (m : R) :
  Forall (fun a => Rabs a <= m) v -> Forall (fun a => a <= m * m) (map square v).
Proof.
  intro H. rewrite Forall_map. eapply Forall_impl; [| exact H]. cbn beta.
  intros a Ha. unfold square.
  replace (a * a) with (Rabs a * Rabs a)
    by (unfold Rabs; destruct (Rcase_abs a); ring).
  pose proof (Rabs_pos a). nra.
Qed.

Lemma vsub_length_le (u v : list R) :
  (List.length (vsub u v) <= List.length u)%nat.
Proof.
  unfold vsub. revert v. induction u as [|a u IH]; intros [|b v];
    cbn [zip_with List.length]; try lia.
  specialize (IH v). lia.
Qed.

Lemma twelve_entries (v : list R) : (List.length v <= 12)%nat -> INR (List.length v) <= 12.
Proof. intro H. apply le_INR in H. simpl in H. lra. Qed.

(** X17: within the ranges the comments of [rewards_test_k.py] assume,
    the clip of the unit-interval file is inactive and the term is the
    raw penalty over its divisor: at most 12 joints with torques within
    10 N m give [sum(square(torques)) / 1200], and at most 12 action
    entries that change by at most 2 give
    [sum(square(act - last_act)) / 48].  The vertical-velocity term is 1
    exactly when the base moves vertically at 2 m/s or faster. *)
Theorem X17_unit_interval_linear_in_design_range :
  (forall torques,
     (List.length torques <= 12)%nat ->
     Forall (fun t => Rabs t <= 10) torques ->
     K.reward_torques torques = sum (map square torques) / 1200) /\
  (forall act last_act,
     (List.length act <= 12)%nat ->
     Forall (fun d => Rabs d <= 2) (vsub act last_act) ->
     K.reward_action_rate act last_act = sum (map square (vsub act last_act)) / 48) /\
  (forall xd,
     K.reward_lin_vel_z xd = 1 <-> 2 <= Rabs (c2 (base3 (vel xd)))).
Proof.
  split; [| split].
  - intros torques Hlen Hb. unfold K.reward_torques.
    pose proof (sum_squares_nonneg torques) as H0.
    pose proof (sum_le_length _ (10 * 10) ltac:(lra) (squares_le _ _ Hb)) as H1.
    rewrite length_map in H1. pose proof (twelve_entries _ Hlen) as H2.
    apply clip_inside. nra.
  - intros act last_act Hlen Hb. unfold K.reward_action_rate.
    pose proof (sum_squares_nonneg (vsub act last_act)) as H0.
    pose proof (sum_le_length _ (2 * 2) ltac:(lra) (squares_le _ _ Hb)) as H1.
    rewrite length_map in H1.
    assert (H2 : INR (List.length (vsub act last_act)) <= 12).
    { apply twelve_entries. pose proof (vsub_length_le act last_act). lia. }
    apply clip_inside. nra.
  - intro xd. unfold K.reward_lin_vel_z.
    set (vz := c2 (base3 (vel xd))).
    assert (Hsq : square vz = Rabs vz * Rabs vz).
    { unfold square, Rabs. destruct (Rcase_abs vz); ring. }
    pose proof (Rabs_pos vz) as Hp. rewrite Hsq.
    split.
    + intro H. destruct (Rle_dec (Rabs vz * Rabs vz / 4) 1) as [H1 | H1].
      * rewrite clip_inside in H by nra. nra.
      * nra.
    + intro H. apply clip_above; nra.
Qed.

Lemma X17_design_range_witness :
  K.reward_torques [10; -10; 5] = sum (map square [10; -10; 5]) / 1200.
Proof.
  apply (proj1 X17_unit_interval_linear_in_design_range).
  - cbn. lia.
  - repeat constructor; unfold Rabs; destruct (Rcase_abs _); lra.
Defined.

Lemma sum_squares_ge_entry (v : list R) (d : R) :
  In d v -> square d <= sum (map square v).
Proof.
  induction v as [|a v IH]; intro H.
  - contradiction.
  - unfold sum in *. cbn [map fold_right].
    pose proof (sum_squares_nonneg v) as Hv. unfold sum in Hv.
    pose proof (square_nonneg a) as Ha.
    destruct H as [-> | H]; [lra | specialize (IH H); lra].
Qed.

(** X18: what the guard leaves at [dt = 0].  The division by [EPS]
    magnifies every velocity change a million times, so a change of a
    single joint velocity by one thousandth or more already drives
    [reward_joint_acceleration] to its upper clip bound: 1 in the
    unit-interval file, 1000 in the signed-wide one. *)
Theorem X18_zero_dt_saturates (joint_vel last_joint_vel : list R) (d : R) :
  In d (vsub joint_vel last_joint_vel) ->
  1 / 1000 <= Rabs d ->
  K.reward_joint_acceleration joint_vel last_joint_vel 0 = 1 /\
  W.reward_joint_acceleration joint_vel last_joint_vel 0 = 1000.
Proof.
  intros Hin Hd.
  assert (Hq : In (d / (0 + EPS)) (vdivs (vsub joint_vel last_joint_vel) (0 + EPS))).
  { unfold vdivs. apply in_map_iff. exists d. split; [reflexivity | exact Hin]. }
  pose proof (sum_squares_ge_entry _ _ Hq) as Hs.
  assert (Hbig : 1000000 <= square (d / (0 + EPS))).
  { unfold square, EPS.
    replace (d / (0 + 1 / 1000000)) with (d * 1000000) by field.
    replace (d * 1000000 * (d * 1000000)) with (Rabs d * Rabs d * 1000000000000)
      by (unfold Rabs; destruct (Rcase_abs d); ring).
    pose proof (Rabs_pos d). nra. }
  unfold K.reward_joint_acceleration, W.reward_joint_acceleration. cbv zeta.
  split; apply clip_above; lra.
Qed.

Lemma X18_zero_dt_witness :
  K.reward_joint_acceleration [1 / 1000] [0] 0 = 1.
Proof.
  apply (X18_zero_dt_saturates [1 / 1000] [0] (1 / 1000 - 0)).
  - left. reflexivity.
  - rewrite Rabs_right; lra.
Defined.
